(** * effective-go: the program of main.go and the channel idioms of the notes

    The repository holds one Go program, [main.go], whose [main] prints a
    fixed line, and a file of notes with schematic Go code: a buffered
    channel used as a semaphore ([sem], [handle], [Serve]), a fixed pool of
    [handle] goroutines started by [Serve] and told to stop through [quit],
    and the [Request] type with its private reply channel.

    Goroutines are modelled by interleaving: a state holds the channels and
    the program counter of every goroutine, an action names the goroutine
    (or the outside sender) that moves, and [step] is the function that
    performs one move when Go would let it proceed and returns [None] when
    the goroutine is blocked. *)

From Stdlib Require Import ZArith String Ascii Lia.
From stdpp Require Import base list pretty.

(** ** main.go *)
Module Main.

Local Open Scope string_scope.

(** [type T struct { name string; value int }] *)
Record T := { name : string; value : Z }.

(** What a process can look at and what it has written so far. *)
Record world := {
  os_args : list string;
  environ : list (string * string);
  stdin : string;
  stdout : string
}.

Definition IO (A : Type) : Type := world -> A * world.

Definition newline : string := String (ascii_of_nat 10) EmptyString.

(** [fmt.Println]: the operands separated by spaces, then a newline, written
    to standard output. *)
Definition Println (operands : list string) : IO unit :=
  fun w =>
    (tt, {| os_args := os_args w; environ := environ w; stdin := stdin w;
            stdout := String.append (stdout w)
                        (String.append (String.concat " " operands) newline) |}).

(** [func main() { fmt.Println("Effective Go") }] *)
Definition main : IO unit := Println ["Effective Go"].

End Main.

(** ** Go channels

    A channel made by [make(chan A, n)]: its capacity, the values waiting in
    its buffer (oldest first) and whether it has been closed. An operation
    either proceeds, blocks the goroutine, or panics. *)
Module Chan.

Record chan (A : Type) := Make { cap : nat; buf : list A; closed : bool }.
Arguments Make {A} _ _ _.
Arguments cap {A} _.
Arguments buf {A} _.
Arguments closed {A} _.

Inductive attempt (A : Type) :=
| Proceeds (a : A)
| Blocks
| Panics.
Arguments Proceeds {A} _.
Arguments Blocks {A}.
Arguments Panics {A}.

(** [make(chan A, n)]; [make(chan A)] is [make 0]. *)
Definition make {A : Type} (n : nat) : chan A := Make n [] false.

(** [c <- x] into the buffer: panics on a closed channel, proceeds while the
    buffer has room, blocks otherwise. An unbuffered channel never has
    room: its sends complete only by meeting a receiver. *)
Definition send {A : Type} (x : A) (c : chan A) : attempt (chan A) :=
  if closed c then Panics
  else if length (buf c) <? cap c then Proceeds (Make (cap c) (buf c ++ [x]) false)
  else Blocks.

(** [<-c] from the buffer: the oldest value when there is one; on a closed
    and drained channel the receive proceeds with no value; otherwise it
    blocks. *)
Definition recv {A : Type} (c : chan A) : attempt (option A * chan A) :=
  match buf c with
  | x :: rest => Proceeds (Some x, Make (cap c) rest (closed c))
  | [] => if closed c then Proceeds (None, c) else Blocks
  end.

(** [close(c)]: panics when [c] is closed already. *)
Definition close {A : Type} (c : chan A) : attempt (chan A) :=
  if closed c then Panics else Proceeds (Make (cap c) (buf c) true).

(** A sender can hand its value straight to a goroutine that waits in a
    receive: the channel is open and nothing is buffered. *)
Definition meets_receiver {A : Type} (c : chan A) : bool :=
  negb (closed c) && bool_decide (buf c = []).

End Chan.

(** ** The semaphore idiom

    [var sem = make(chan int, MaxOutstanding)], [handle(r)] and the first
    [Serve(queue)] of the notes. [process] is not defined there: a call to
    it is a program point that the goroutine leaves by returning or by
    panicking, and a panic that nothing recovers stops the whole program. *)
Module Sem.

(** [*Request]: the notes leave the type open at this point. *)
Definition Request : Type := nat.

(** Program points of the goroutines. *)
Inductive loc :=
| HAcquire (r : Request)   (* handle: at [sem <- 1] *)
| HProcess (r : Request)   (* handle: inside [process(r)] *)
| HRelease                 (* handle: at [<-sem] *)
| HDone                    (* handle: returned *)
| HPanicked                (* handle: [process] panicked *)
| SRecv                    (* Serve: at [for req := range queue] *)
| SAcquire (r : Request)   (* Serve: at [sem <- 1] *)
| SGo (r : Request)        (* Serve: at [go func(req *Request) {...}(req)] *)
| SDone                    (* Serve: the range loop ended *)
| GProcess (r : Request)   (* closure: inside [process(req)] *)
| GRelease                 (* closure: at [<-sem] *)
| GDone                    (* closure: returned *)
| GPanicked.               (* closure: [process] panicked *)

(** A goroutine: where it is, and how many sends to and receives from [sem]
    it has completed. *)
Record thread := Thread { pc : loc; acquires : nat; releases : nat }.

Record state := State {
  sem : Chan.chan Z;
  queue : Chan.chan Request;
  threads : list thread;
  crashed : bool
}.

Inductive action :=
| CallHandle (r : Request)          (* a new goroutine calls [handle(r)] *)
| CallServe                         (* a new goroutine calls [Serve(queue)] *)
| Enqueue (r : Request)             (* a sender's [queue <- r] is buffered *)
| Handoff (r : Request) (t : nat)   (* a sender's [queue <- r] meets Serve [t] *)
| CloseQueue                        (* [close(queue)] *)
| Run (t : nat)                     (* goroutine [t] performs its statement *)
| PanicIn (t : nat)                 (* [process] panics in goroutine [t] *)
| Sync (s r : nat).                 (* [sem <- 1] of [s] meets [<-sem] of [r] *)

(** The program starts with [sem] made and no goroutine using it; the
    capacity of [queue] is its maker's choice. *)
Definition init (MaxOutstanding qcap : nat) : state :=
  State (Chan.make MaxOutstanding) (Chan.make qcap) [] false.

Definition with_sem (c : Chan.chan Z) (st : state) : state :=
  State c (queue st) (threads st) (crashed st).
Definition with_queue (q : Chan.chan Request) (st : state) : state :=
  State (sem st) q (threads st) (crashed st).
Definition set_thread (t : nat) (th : thread) (st : state) : state :=
  State (sem st) (queue st) (<[t := th]> (threads st)) (crashed st).
Definition spawn (l : loc) (st : state) : state :=
  State (sem st) (queue st) (threads st ++ [Thread l 0 0]) (crashed st).
Definition crash (st : state) : state :=
  State (sem st) (queue st) (threads st) true.

Definition at_loc (l : loc) (th : thread) : thread :=
  Thread l (acquires th) (releases th).

(** The statement after [sem <- 1]. *)
Definition after_acquire (l : loc) : option loc :=
  match l with
  | HAcquire r => Some (HProcess r)
  | SAcquire r => Some (SGo r)
  | _ => None
  end.

(** The statement after [process(r)] returns, and where its panic ends. *)
Definition after_process (l : loc) : option loc :=
  match l with
  | HProcess _ => Some HRelease
  | GProcess _ => Some GRelease
  | _ => None
  end.
Definition panicked (l : loc) : option loc :=
  match l with
  | HProcess _ => Some HPanicked
  | GProcess _ => Some GPanicked
  | _ => None
  end.

(** The statement after [<-sem]. *)
Definition after_release (l : loc) : option loc :=
  match l with
  | HRelease => Some HDone
  | GRelease => Some GDone
  | _ => None
  end.

Definition acquired (l : loc) (th : thread) : thread :=
  Thread l (S (acquires th)) (releases th).
Definition released (l : loc) (th : thread) : thread :=
  Thread l (acquires th) (S (releases th)).

(** One statement of goroutine [t], which is at [pc th]. *)
Definition run_thread (st : state) (t : nat) (th : thread) : option state :=
  match pc th with
  | HAcquire _ | SAcquire _ =>
      match after_acquire (pc th), Chan.send 1%Z (sem st) with
      | Some l, Chan.Proceeds c => Some (set_thread t (acquired l th) (with_sem c st))
      | Some _, Chan.Panics => Some (crash st)
      | _, _ => None
      end
  | HProcess _ | GProcess _ =>
      match after_process (pc th) with
      | Some l => Some (set_thread t (at_loc l th) st)
      | None => None
      end
  | HRelease | GRelease =>
      match after_release (pc th), Chan.recv (sem st) with
      | Some l, Chan.Proceeds (_, c) => Some (set_thread t (released l th) (with_sem c st))
      | _, _ => None
      end
  | SRecv =>
      match Chan.recv (queue st) with
      | Chan.Proceeds (Some r, q) => Some (set_thread t (at_loc (SAcquire r) th) (with_queue q st))
      | Chan.Proceeds (None, q) => Some (set_thread t (at_loc SDone th) (with_queue q st))
      | _ => None
      end
  | SGo r => Some (spawn (GProcess r) (set_thread t (at_loc SRecv th) st))
  | HDone | HPanicked | SDone | GDone | GPanicked => None
  end.

(** One move of the program; [None] when the move cannot happen now. *)
Definition step (st : state) (a : action) : option state :=
  if crashed st then None else
  match a with
  | CallHandle r => Some (spawn (HAcquire r) st)
  | CallServe => Some (spawn SRecv st)
  | Enqueue r =>
      match Chan.send r (queue st) with
      | Chan.Proceeds q => Some (with_queue q st)
      | Chan.Blocks => None
      | Chan.Panics => Some (crash st)
      end
  | Handoff r t =>
      match threads st !! t with
      | Some th =>
          match pc th with
          | SRecv =>
              if Chan.meets_receiver (queue st)
              then Some (set_thread t (at_loc (SAcquire r) th) st)
              else None
          | _ => None
          end
      | None => None
      end
  | CloseQueue =>
      match Chan.close (queue st) with
      | Chan.Proceeds q => Some (with_queue q st)
      | _ => Some (crash st)
      end
  | Run t =>
      match threads st !! t with
      | Some th => run_thread st t th
      | None => None
      end
  | PanicIn t =>
      match threads st !! t with
      | Some th =>
          match panicked (pc th) with
          | Some l => Some (crash (set_thread t (at_loc l th) st))
          | None => None
          end
      | None => None
      end
  | Sync s r =>
      match threads st !! s, threads st !! r with
      | Some ths, Some thr =>
          match after_acquire (pc ths), after_release (pc thr) with
          | Some ls, Some lr =>
              if Chan.meets_receiver (sem st)
              then Some (set_thread r (released lr thr)
                           (set_thread s (acquired ls ths) st))
              else None
          | _, _ => None
          end
      | _, _ => None
      end
  end.

(** A blocked or impossible move leaves the program where it is. *)
Definition next (st : state) (a : action) : state := default st (step st a).

Definition run (tr : list action) (st : state) : state := fold_left next tr st.

(** The gate counter: the number of values held by [sem]. *)
Definition inUse (st : state) : nat := length (Chan.buf (sem st)).
Definition capacity (st : state) : nat := Chan.cap (sem st).

(** Goroutines inside [process]. *)
Definition running (th : thread) : nat :=
  match pc th with
  | HProcess _ | GProcess _ => 1
  | _ => 0
  end.
Definition executing (st : state) : nat := sum_list_with running (threads st).

(** Goroutines between a completed [sem <- 1] and the matching [<-sem]. *)
Definition holding (th : thread) : nat :=
  match pc th with
  | HProcess _ | HRelease | HPanicked | SGo _ | GProcess _ | GRelease | GPanicked => 1
  | _ => 0
  end.
Definition holders (st : state) : nat := sum_list_with holding (threads st).

(** [0 <= inUse <= capacity]. *)
Definition gate_ok (st : state) : Prop := (0 <= inUse st <= capacity st)%nat.

(** ** Invariants of the semaphore *)

(** The invariant of the semaphore: [sem] stays open, it holds one value
    for every goroutine between its acquire and its release, and never
    more than its capacity. *)
Definition inv (st : state) : Prop :=
  Chan.closed (sem st) = false /\ holders st = inUse st /\ inUse st <= capacity st.

(** What the counters of a goroutine running [handle] are at each of its
    program points. *)
Definition paired (th : thread) : Prop :=
  match pc th with
  | HAcquire _ => acquires th = 0 /\ releases th = 0
  | HProcess _ | HRelease | HPanicked => acquires th = 1 /\ releases th = 0
  | HDone => acquires th = 1 /\ releases th = 1
  | _ => True
  end.

End Sem.

(** ** The pool of handlers and the requests with a reply channel

    The second [handle(queue)] and [Serve(clientRequests, quit)] of the
    notes, [type Request], [sum] and the client that sends a request and
    waits for its answer. *)
Module Pool.

(** Go's [int] on a 64-bit platform: arithmetic wraps around. *)
Definition wrap (z : Z) : Z := ((z + 2 ^ 63) mod 2 ^ 64 - 2 ^ 63)%Z.

(** Modelled from the spec: what [process] delivers on the reply of a
    request. The worker "computes either a result value or an error" and
    "delivers exactly one of {result, error} on the Task's reply"; the
    error is a value "tagged" [TaskFailed]. *)
Inductive outcome :=
| Result (v : Z)
| TaskFailed.

(** [type Request struct { args []int; f func([]int) int; resultChan chan int }].
    A call of [f] returns an [int] or raises an error ([None]). The values
    sent on [resultChan] are those that [process] delivers, so the channel
    carries [outcome]s: an [int], or the error of the computation. *)
Record Request := MkRequest {
  args : list Z;
  f : list Z -> option Z;
  resultChan : Chan.chan outcome
}.

(** Modelled from the spec: the computation of a request, [r.f(r.args)],
    and what it comes to, a result or an error. *)
Definition outcome_of (r : Request) : outcome :=
  match f r (args r) with
  | Some v => Result v
  | None => TaskFailed
  end.

(** [func sum(a []int) (s int) { for _, v := range a { s += v }; return }] *)
Definition sum (a : list Z) : Z := fold_left (fun s v => wrap (s + v)) a 0%Z.

(** The client of a request, after its [clientRequests <- request]: it is
    at [<-request.resultChan], or it has the answer, or it has stopped
    waiting. The client of the notes always waits. *)
Inductive client :=
| Awaiting
| Answered (o : outcome)
| Abandoned.

(** A request in memory, the state of the client that made it, and the
    values that have been sent on its [resultChan], oldest first. *)
Record task := Task { req : Request; owner : client; written : list outcome }.

(** Program points of a [handle] goroutine; requests are named by their
    place in memory. *)
Inductive loc :=
| Idle                          (* at [for r := range queue] *)
| Computing (r : nat)           (* in [process(r)], evaluating [r.f(r.args)] *)
| Replying (r : nat) (o : outcome)
                                (* in [process(r)], at the send on [r.resultChan] *)
| Exited.                       (* the range loop ended *)

(** Program points of [Serve]. *)
Inductive serve_loc :=
| Launching (i : nat)           (* at the test [i < MaxOutstanding] *)
| AwaitQuit                     (* at [<-quit] *)
| Returned.

Record state := State {
  clientRequests : Chan.chan nat;
  quit : Chan.chan bool;
  signalled : bool;             (* a send on [quit] has completed *)
  serve : serve_loc;
  workers : list loc;
  heap : list task;
  begun : list nat;             (* requests in the order handlers received them *)
  finished : list nat;          (* requests in the order their reply was sent *)
  crashed : bool
}.

Inductive action :=
| Launch                              (* Serve: loop test, [go handle(clientRequests)] *)
| SignalQuit                          (* [quit <- true] is buffered *)
| TellServe                           (* [quit <- true] meets Serve's [<-quit] *)
| ServeQuit                           (* Serve: [<-quit] from the buffer, or on a
                                         closed [quit] *)
| CloseQuit                           (* [close(quit)] *)
| Submit (a : list Z) (g : list Z -> option Z) (rcap : nat)
                                      (* a client makes a request; its send is buffered *)
| Handoff (a : list Z) (g : list Z -> option Z) (rcap : nat) (w : nat)
                                      (* the same, the send meets handler [w] *)
| Close                               (* [close(clientRequests)] *)
| Pull (w : nat)                      (* handler [w]: the receive of its range loop *)
| Compute (w : nat)                   (* handler [w]: [r.f(r.args)] returns or fails *)
| Reply (w : nat)                     (* handler [w]: the send on [r.resultChan] *)
| Collect (i : nat)                   (* client of [i]: [<-request.resultChan] from the buffer *)
| Abandon (i : nat).                  (* client of [i] stops waiting *)

Definition init (qcap quitcap : nat) : state :=
  State (Chan.make qcap) (Chan.make quitcap) false (Launching 0) [] [] [] [] false.

(** [&Request{a, g, make(chan int, rcap)}], its client about to wait. *)
Definition new_task (a : list Z) (g : list Z -> option Z) (rcap : nat) : task :=
  Task (MkRequest a g (Chan.make rcap)) Awaiting [].

(** The client of the notes:
    [request := &Request{[]int{3, 4, 5}, sum, make(chan int)}]. *)
Definition request : task := new_task [3; 4; 5]%Z (fun a => Some (sum a)) 0.

Definition with_queue (q : Chan.chan nat) (st : state) : state :=
  State q (quit st) (signalled st) (serve st) (workers st) (heap st)
        (begun st) (finished st) (crashed st).
Definition with_shutdown (q : Chan.chan bool) (s : bool) (l : serve_loc)
    (st : state) : state :=
  State (clientRequests st) q s l (workers st) (heap st)
        (begun st) (finished st) (crashed st).
Definition with_workers (ws : list loc) (st : state) : state :=
  State (clientRequests st) (quit st) (signalled st) (serve st) ws (heap st)
        (begun st) (finished st) (crashed st).
Definition set_worker (w : nat) (l : loc) (st : state) : state :=
  with_workers (<[w := l]> (workers st)) st.
Definition with_heap (h : list task) (st : state) : state :=
  State (clientRequests st) (quit st) (signalled st) (serve st) (workers st) h
        (begun st) (finished st) (crashed st).
Definition set_task (i : nat) (t : task) (st : state) : state :=
  with_heap (<[i := t]> (heap st)) st.
Definition log_begun (r : nat) (st : state) : state :=
  State (clientRequests st) (quit st) (signalled st) (serve st) (workers st)
        (heap st) (begun st ++ [r]) (finished st) (crashed st).
Definition log_finished (r : nat) (st : state) : state :=
  State (clientRequests st) (quit st) (signalled st) (serve st) (workers st)
        (heap st) (begun st) (finished st ++ [r]) (crashed st).
Definition crash (st : state) : state :=
  State (clientRequests st) (quit st) (signalled st) (serve st) (workers st)
        (heap st) (begun st) (finished st) true.

(** The task after [v] has been sent on its channel, which becomes [c]. *)
Definition sent (v : outcome) (c : Chan.chan outcome) (o : client) (t : task) : task :=
  Task (MkRequest (args (req t)) (f (req t)) c) o (written t ++ [v]).
Definition received (c : Chan.chan outcome) (o : client) (t : task) : task :=
  Task (MkRequest (args (req t)) (f (req t)) c) o (written t).

(** [for i := 0; i < MaxOutstanding; i++ { go handle(clientRequests) }]. *)
Definition launch (MaxOutstanding : nat) (st : state) : option state :=
  match serve st with
  | Launching i =>
      if i <? MaxOutstanding
      then Some (with_workers (workers st ++ [Idle])
                   (with_shutdown (quit st) (signalled st) (Launching (S i)) st))
      else Some (with_shutdown (quit st) (signalled st) AwaitQuit st)
  | _ => None
  end.

(** [for r := range queue]: the next request, or the end of the loop when
    the channel is closed and drained. *)
Definition pull (w : nat) (st : state) : option state :=
  match workers st !! w with
  | Some Idle =>
      match Chan.recv (clientRequests st) with
      | Chan.Proceeds (Some r, q) =>
          Some (log_begun r (set_worker w (Computing r) (with_queue q st)))
      | Chan.Proceeds (None, q) => Some (set_worker w Exited (with_queue q st))
      | _ => None
      end
  | _ => None
  end.

(** Modelled from the spec: [process] is called by [handle] and defined
    nowhere in the notes. The spec has the worker execute the task's
    computation, compute either a result value or an error, and deliver
    exactly one of the two on the task's reply; an error of the computation
    is never a fault of the worker. This is the first half, the call
    [r.f(r.args)]: the handler goes on to the send with the outcome. *)
Definition compute (w : nat) (st : state) : option state :=
  match workers st !! w with
  | Some (Computing r) =>
      match heap st !! r with
      | Some t => Some (set_worker w (Replying r (outcome_of (req t))) st)
      | None => None
      end
  | _ => None
  end.

(** Modelled from the spec: the second half of [process], the send of the
    outcome [v] on [r.resultChan]. It is buffered when the channel has
    room, and otherwise completes only by meeting the client's receive. *)
Definition reply (w : nat) (st : state) : option state :=
  match workers st !! w with
  | Some (Replying r v) =>
      match heap st !! r with
      | Some t =>
          match Chan.send v (resultChan (req t)) with
          | Chan.Proceeds c =>
              Some (log_finished r (set_worker w Idle
                      (set_task r (sent v c (owner t) t) st)))
          | Chan.Panics => Some (crash st)
          | Chan.Blocks =>
              match owner t with
              | Awaiting =>
                  if Chan.meets_receiver (resultChan (req t))
                  then Some (log_finished r (set_worker w Idle
                               (set_task r (sent v (resultChan (req t)) (Answered v) t) st)))
                  else None
              | _ => None
              end
          end
      | None => None
      end
  | _ => None
  end.

(** The client's [<-request.resultChan] when a value is buffered (a closed
    and drained channel yields the zero value). *)
Definition collect (i : nat) (st : state) : option state :=
  match heap st !! i with
  | Some t =>
      match owner t with
      | Awaiting =>
          match Chan.recv (resultChan (req t)) with
          | Chan.Proceeds (Some v, c) => Some (set_task i (received c (Answered v) t) st)
          | Chan.Proceeds (None, c) =>
              Some (set_task i (received c (Answered (Result 0)) t) st)
          | _ => None
          end
      | _ => None
      end
  | None => None
  end.

Definition abandon (i : nat) (st : state) : option state :=
  match heap st !! i with
  | Some t =>
      match owner t with
      | Awaiting => Some (set_task i (Task (req t) Abandoned (written t)) st)
      | _ => None
      end
  | None => None
  end.

(** One move of the program; [None] when the move cannot happen now. *)
Definition step (MaxOutstanding : nat) (st : state) (a : action) : option state :=
  if crashed st then None else
  match a with
  | Launch => launch MaxOutstanding st
  | SignalQuit =>
      match Chan.send true (quit st) with
      | Chan.Proceeds q => Some (with_shutdown q true (serve st) st)
      | Chan.Blocks => None
      | Chan.Panics => Some (crash st)
      end
  | TellServe =>
      match serve st with
      | AwaitQuit =>
          if Chan.meets_receiver (quit st)
          then Some (with_shutdown (quit st) true Returned st)
          else None
      | _ => None
      end
  | ServeQuit =>
      match serve st with
      | AwaitQuit =>
          match Chan.recv (quit st) with
          | Chan.Proceeds (_, q) => Some (with_shutdown q (signalled st) Returned st)
          | _ => None
          end
      | _ => None
      end
  | CloseQuit =>
      match Chan.close (quit st) with
      | Chan.Proceeds q => Some (with_shutdown q (signalled st) (serve st) st)
      | _ => Some (crash st)
      end
  | Submit a g rcap =>
      match Chan.send (length (heap st)) (clientRequests st) with
      | Chan.Proceeds q => Some (with_heap (heap st ++ [new_task a g rcap]) (with_queue q st))
      | Chan.Blocks => None
      | Chan.Panics => Some (crash st)
      end
  | Handoff a g rcap w =>
      match workers st !! w with
      | Some Idle =>
          if Chan.meets_receiver (clientRequests st)
          then Some (log_begun (length (heap st))
                       (set_worker w (Computing (length (heap st)))
                          (with_heap (heap st ++ [new_task a g rcap]) st)))
          else None
      | _ => None
      end
  | Close =>
      match Chan.close (clientRequests st) with
      | Chan.Proceeds q => Some (with_queue q st)
      | _ => Some (crash st)
      end
  | Pull w => pull w st
  | Compute w => compute w st
  | Reply w => reply w st
  | Collect i => collect i st
  | Abandon i => abandon i st
  end.

Definition next (MaxOutstanding : nat) (st : state) (a : action) : state :=
  default st (step MaxOutstanding st a).

Definition run (MaxOutstanding : nat) (tr : list action) (st : state) : state :=
  fold_left (next MaxOutstanding) tr st.

(** The request a handler is working on. *)
Definition current (l : loc) : option nat :=
  match l with
  | Computing r | Replying r _ => Some r
  | Idle | Exited => None
  end.

(** Two simple values for [Request.f]: a function that returns [v] and one
    that raises an error. *)
Definition returns (v : Z) : list Z -> option Z := fun _ => Some v.

(** ** Invariants of the pool

    How often request [i] occurs in a log or a buffer, and how many
    handlers are working on it. *)
Definition occ (i : nat) (l : list nat) : nat :=
  sum_list_with (fun j => if decide (j = i) then 1 else 0) l.
Definition busy (i : nat) (ws : list loc) : nat :=
  sum_list_with (fun l => if decide (current l = Some i) then 1 else 0) ws.

Arguments occ : simpl never.
Arguments busy : simpl never.

Record inv (st : state) : Prop := Inv {
  inv_fifo : begun st ++ Chan.buf (clientRequests st) = seq 0 (length (heap st));
  inv_once : forall i, occ i (begun st) = busy i (workers st) + occ i (finished st);
  inv_written : forall i t, heap st !! i = Some t -> length (written t) = occ i (finished st);
  inv_value : forall i t v, heap st !! i = Some t ->
    v ∈ written t \/ (exists w, workers st !! w = Some (Replying i v)) ->
    v = outcome_of (req t)
}.


(** The handlers started so far are as many as [Serve]'s loop counter says,
    and never more than [MaxOutstanding]. *)
Definition launched (MaxOutstanding : nat) (st : state) : Prop :=
  match serve st with
  | Launching i => length (workers st) = i /\ i <= MaxOutstanding
  | AwaitQuit | Returned => length (workers st) = MaxOutstanding
  end.





(** Handler [w] is at the send of [v] on the unbuffered reply channel of
    request [i], whose client has stopped waiting. *)
Definition stuck (w i : nat) (v : outcome) (st : state) : Prop :=
  workers st !! w = Some (Replying i v) /\
  exists t, heap st !! i = Some t /\
            Chan.cap (resultChan (req t)) = 0 /\ owner t = Abandoned.

End Pool.

(** ** Byte slices: [Compare] *)
Module Bytes.

(** [a[i]] for an [int] index: [None] is the run-time panic of an index out
    of range. *)
Definition index {A : Type} (a : list A) (i : Z) : option A :=
  if (i <? 0)%Z then None else a !! Z.to_nat i.

(** The loop of [Compare], entered with counter [i]; [fuel] bounds the
    number of iterations, [None] is an index out of range or the end of the
    fuel. After the loop, the [switch] on the lengths. *)
Fixpoint compare_loop (fuel i : nat) (a b : list Z) : option Z :=
  if (i <? length a) && (i <? length b) then
    match fuel with
    | 0 => None
    | S fuel' =>
        match a !! i, b !! i with
        | Some x, Some y =>
            if (x >? y)%Z then Some 1%Z
            else if (x <? y)%Z then Some (-1)%Z
            else compare_loop fuel' (S i) a b
        | _, _ => None
        end
    end
  else if length b <? length a then Some 1%Z
  else if length a <? length b then Some (-1)%Z
  else Some 0%Z.

(** [func Compare(a, b []byte) int] *)
Definition Compare (a b : list Z) : option Z := compare_loop (length a) 0 a b.

(** The lexicographic comparison of two slices, by recursion on them. *)
Fixpoint lex (a b : list Z) : Z :=
  match a, b with
  | [], [] => 0
  | [], _ :: _ => -1
  | _ :: _, [] => 1
  | x :: a', y :: b' =>
      if (x >? y)%Z then 1 else if (x <? y)%Z then -1 else lex a' b'
  end.

End Bytes.

(** ** Slices updated in place: the reversal loop, [Sequence], [Append] and
    the rows of a picture *)
Module Slices.

(** [a[i], a[j] = a[j], a[i]]: both elements are read, then both are
    written. *)
Definition swap {A : Type} (i j : Z) (a : list A) : option (list A) :=
  match Bytes.index a i, Bytes.index a j with
  | Some x, Some y => Some (<[Z.to_nat j := x]> (<[Z.to_nat i := y]> a))
  | _, _ => None
  end.

(** [for i, j := 0, len(a)-1; i < j; i, j = i+1, j-1 { a[i], a[j] = a[j], a[i] }] *)
Fixpoint reverse_loop {A : Type} (fuel : nat) (i j : Z) (a : list A) : option (list A) :=
  if (i <? j)%Z then
    match fuel with
    | 0 => None
    | S fuel' =>
        match swap i j a with
        | Some a' => reverse_loop fuel' (i + 1) (j - 1) a'
        | None => None
        end
    end
  else Some a.

Definition Reverse {A : Type} (a : list A) : option (list A) :=
  reverse_loop (length a) 0 (Z.of_nat (length a) - 1) a.

(** [type Sequence []int] and its methods for [sort.Interface]. *)
Definition Sequence : Type := list Z.

Definition Len (s : Sequence) : Z := Z.of_nat (length s).

Definition Less (s : Sequence) (i j : Z) : option bool :=
  match Bytes.index s i, Bytes.index s j with
  | Some x, Some y => Some (x <? y)%Z
  | _, _ => None
  end.

Definition Swap (s : Sequence) (i j : Z) : option Sequence := swap i j s.

(** A byte slice: its backing array from the first element of the slice to
    the end of its capacity, and its length. *)
Record slice := Slice { arr : list Z; len : nat }.

Definition cap (s : slice) : nat := length (arr s).

(** A slice as Go builds them: the length is within the capacity. *)
Definition wf (s : slice) : Prop := len s <= cap s.

(** The elements of the slice. *)
Definition elems (s : slice) : list Z := take (len s) (arr s).

(** [make([]byte, n)] *)
Definition make (n : nat) : slice := Slice (replicate n 0%Z) n.

(** [copy(dst, src)]: the first [min(len(dst), len(src))] elements. *)
Definition copy (dst src : slice) : slice :=
  let n := min (len dst) (len src) in
  Slice (take n (arr src) ++ drop n (arr dst)) (len dst).

(** [s[0:hi]]: panics when [hi] is beyond the capacity. *)
Definition reslice (s : slice) (hi : nat) : option slice :=
  if hi <=? cap s then Some (Slice (arr s) hi) else None.

(** [s[i] = c]: panics when [i] is not below the length. *)
Definition store (s : slice) (i : nat) (c : Z) : option slice :=
  if i <? len s then Some (Slice (<[i := c]> (arr s)) (len s)) else None.

(** [for i, c := range data { slice[l+i] = c }], entered with counter [i]. *)
Fixpoint store_from (s : slice) (l i : nat) (data : list Z) : option slice :=
  match data with
  | [] => Some s
  | c :: rest =>
      match store s (l + i) c with
      | Some s' => store_from s' l (S i) rest
      | None => None
      end
  end.

(** [func Append(slice, data []byte) []byte], as the notes have it: the
    slice is cut to [slice[0:1+len(data)]]. Here [data] is given by its
    elements: it lives in an array of its own, which the stores of the
    loop do not touch. *)
Definition Append (s : slice) (data : list Z) : option slice :=
  let l := len s in
  let s1 := if cap s <? l + length data
            then copy (make ((l + length data) * 2)) s
            else s in
  match reslice s1 (1 + length data) with
  | Some s2 => store_from s2 l 0 data
  | None => None
  end.

(** Where the argument [data] of [Append] lives. Its first elements,
    [own], are out of reach of the stores of the loop: they lie in another
    array, or in the array of [slice] before its first element. They are
    followed by the [shared_len] elements of the array of [slice] from
    place [shared_from] on (places are counted from the first element of
    [slice]). *)
Record source := Source { own : list Z; shared_from : nat; shared_len : nat }.

(** [data] in an array of its own, and [data] inside the array of [slice]. *)
Definition Elsewhere (vals : list Z) : source := Source vals 0 0.
Definition Within (o k : nat) : source := Source [] o k.

(** [len(data)] *)
Definition data_len (d : source) : nat := length (own d) + shared_len d.

(** [data[i]], read while the backing array of [slice] is [a]. *)
Definition read (d : source) (a : list Z) (i : nat) : option Z :=
  if i <? length (own d) then own d !! i
  else if i - length (own d) <? shared_len d
       then a !! (shared_from d + (i - length (own d)))
       else None.

(** The elements of [data] while the backing array of [slice] is [a]. *)
Definition values (d : source) (a : list Z) : list Z :=
  own d ++ take (shared_len d) (drop (shared_from d) a).

(** [for i, c := range data { slice[l+i] = c }] with [n] turns left, when
    [data] may share the array of [slice]: [len(data)] is fixed on entry,
    and [data[i]] is read at turn [i], after the stores of the turns
    before. *)
Fixpoint range_store (s : slice) (l i n : nat) (d : source) : option slice :=
  match n with
  | 0 => Some s
  | S n' =>
      match read d (arr s) i with
      | Some c =>
          match store s (l + i) c with
          | Some s' => range_store s' l (S i) n' d
          | None => None
          end
      | None => None
      end
  end.

(** [Append] when [data] may share the array of [slice]. After the
    reallocation the stores go to the new array and [data] keeps the
    elements it had; without it they go to the array that [data] is read
    from. *)
Definition AppendFrom (s : slice) (d : source) : option slice :=
  let l := len s in
  let n := data_len d in
  if cap s <? l + n
  then match reslice (copy (make ((l + n) * 2)) s) (1 + n) with
       | Some s2 => store_from s2 l 0 (values d (arr s))
       | None => None
       end
  else match reslice s (1 + n) with
       | Some s2 => range_store s2 l 0 n d
       | None => None
       end.

(** [data] is a slice: the part of it in the array of [slice] ends within
    that array. *)
Definition in_array (d : source) (s : slice) : Prop :=
  shared_from d + shared_len d <= cap s.

(** The stores of the loop, made from place [len(slice)] upwards, reach no
    element of [data] that is still to be read: [data] has no element in
    the array of [slice], or its part there starts late enough or ends
    before [len(slice)], or the slice is reallocated. *)
Definition unharmed (d : source) (s : slice) : Prop :=
  shared_len d = 0 \/
  len s + length (own d) <= shared_from d \/
  shared_from d + shared_len d <= len s \/
  cap s < len s + data_len d.






End Slices.

(** ** The [init] function of the notes *)
Module Startup.

Local Open Scope string_scope.

(** The package variables [home], [user] and [gopath]. *)
Record vars := Vars { home : string; user : string; gopath : string }.

(** [var ( home = os.Getenv("HOME"); user = os.Getenv("USER");
    gopath = os.Getenv("GOPATH") )]; [getenv] gives the empty string for a
    variable that is not set. *)
Definition load (getenv : string -> string) : vars :=
  Vars (getenv "HOME") (getenv "USER") (getenv "GOPATH").

(** [func init()]: [None] is the exit of [log.Fatal("$USER not set")]. *)
Definition init (v : vars) : option vars :=
  if String.eqb (user v) "" then None
  else
    let h := if String.eqb (home v) "" then String.append "/home/" (user v) else home v in
    let g := if String.eqb (gopath v) "" then String.append h "/go" else gopath v in
    Some (Vars h (user v) g).

End Startup.

(** ** The two HTTP handlers of the notes *)
Module Web.

Local Open Scope string_scope.

(** [type Counter struct { n int }] *)
Record Counter := MkCounter { n : Z }.

(** The text of [fmt.Sprintf("counter = %d\n", z)]. *)
Definition report (z : Z) : string :=
  String.append "counter = " (String.append (pretty z) Main.newline).

(** [func (ctr *Counter) ServerHTTP(w, req)]: [ctr.n++], then
    [fmt.Fprintf(w, "counter = %d\n", ctr.n)]. The counter after the call
    and the text written to [w]. *)
Definition ServerHTTP (ctr : Counter) : Counter * string :=
  let ctr' := MkCounter (Pool.wrap (n ctr + 1)) in
  (ctr', report (n ctr')).

(** [k] visits, one after the other: the counter and the responses, oldest
    first. *)
Fixpoint visits (k : nat) (ctr : Counter) : Counter * list string :=
  match k with
  | 0 => (ctr, [])
  | S k' =>
      let '(ctr1, r) := ServerHTTP ctr in
      let '(ctr2, rs) := visits k' ctr1 in
      (ctr2, r :: rs)
  end.

(** [type Chan chan *http.Request] and
    [func (ch Chan) ServeHTTP(w, req) { ch <- req; fmt.Fprint(w, "notification sent") }]
    with nobody receiving from [ch]: the channel after the send and the
    text written to [w]. *)
Definition Notify (ch : Chan.chan nat) (req : nat) : Chan.attempt (Chan.chan nat * string) :=
  match Chan.send req ch with
  | Chan.Proceeds c => Chan.Proceeds (c, "notification sent")
  | Chan.Blocks => Chan.Blocks
  | Chan.Panics => Chan.Panics
  end.

(** Visits [reqs], each in its handler goroutine, nobody receiving: the
    channel, and the requests that were answered. *)
Fixpoint notify_all (ch : Chan.chan nat) (reqs : list nat) : Chan.chan nat * list nat :=
  match reqs with
  | [] => (ch, [])
  | r :: rest =>
      match Notify ch r with
      | Chan.Proceeds (c, _) =>
          let '(c', answered) := notify_all c rest in (c', r :: answered)
      | _ => notify_all ch rest
      end
  end.

End Web.

(** ** Waiting for a goroutine through a channel

    [c := make(chan int)], [go func() { list.Sort(); c <- 1 }()],
    [doSomethingForAWhile()], [<-c]. *)
Module Signal.

(** The goroutine: in [list.Sort()], at [c <- 1], or returned. *)
Inductive sorter := Sorting | Sending | Finished.

(** The launching goroutine: in [doSomethingForAWhile()], at [<-c], or past
    it with the value received. *)
Inductive launcher := Busy | Waiting | Past (v : Z).

Record state := State { c : Chan.chan Z; worker : sorter; caller : launcher }.

Inductive action :=
| SortDone        (* [list.Sort()] returns *)
| SendBuffered    (* [c <- 1] goes to the buffer *)
| WorkDone        (* [doSomethingForAWhile()] returns *)
| RecvBuffered    (* [<-c] takes a value from the buffer *)
| Meet.           (* [c <- 1] meets [<-c] *)

(** [make(chan int, n)]; the notes have [make(chan int)], [n = 0]. *)
Definition init (n : nat) : state := State (Chan.make n) Sorting Busy.

Definition step (st : state) (a : action) : option state :=
  match a with
  | SortDone =>
      match worker st with
      | Sorting => Some (State (c st) Sending (caller st))
      | _ => None
      end
  | SendBuffered =>
      match worker st, Chan.send 1%Z (c st) with
      | Sending, Chan.Proceeds c' => Some (State c' Finished (caller st))
      | _, _ => None
      end
  | WorkDone =>
      match caller st with
      | Busy => Some (State (c st) (worker st) Waiting)
      | _ => None
      end
  | RecvBuffered =>
      match caller st, Chan.recv (c st) with
      | Waiting, Chan.Proceeds (Some v, c') => Some (State c' (worker st) (Past v))
      | Waiting, Chan.Proceeds (None, c') => Some (State c' (worker st) (Past 0))
      | _, _ => None
      end
  | Meet =>
      match worker st, caller st with
      | Sending, Waiting =>
          if Chan.meets_receiver (c st)
          then Some (State (c st) Finished (Past 1))
          else None
      | _, _ => None
      end
  end.

Definition next (st : state) (a : action) : state := default st (step st a).
Definition run (tr : list action) (st : state) : state := fold_left next tr st.

(** What holds in every state: the channel is open, its buffer holds the
    one value only after the send, and the caller is past [<-c] only after
    the sort. *)
Definition inv (st : state) : Prop :=
  Chan.closed (c st) = false /\
  (Chan.buf (c st) = [] \/ (Chan.buf (c st) = [1%Z] /\ worker st = Finished)) /\
  (forall v, caller st = Past v -> worker st = Finished /\ v = 1%Z).

End Signal.

(** ** More invariants of the semaphore and of the pool *)
Module SemMore.
Import Sem.

(** A goroutine that has something left to do with the semaphore: it is at
    an acquire, inside [process], at the [go] statement or at a release. *)
Definition engaged (l : loc) : bool :=
  match l with
  | HAcquire _ | HProcess _ | HRelease | SAcquire _ | SGo _ | GProcess _ | GRelease => true
  | _ => false
  end.

(** No goroutine has panicked as long as the program runs. *)
Definition alive (st : state) : Prop :=
  crashed st = false ->
  Forall (fun th => pc th <> HPanicked /\ pc th <> GPanicked) (threads st).

End SemMore.

Module PoolMore.
Import Pool.

(** [Serve] has returned only after a send on [quit], or after [quit] was
    closed: [<-quit] also returns on a closed channel. *)
Definition told (st : state) : Prop :=
  (Chan.buf (quit st) <> [] -> signalled st = true) /\
  (serve st = Returned -> signalled st = true \/ Chan.closed (quit st) = true).

End PoolMore.

(** * Facts about channels and counting *)
Module ChanFacts.

Lemma sum_list_with_insert {A : Type} (g : A -> nat) (l : list A) (i : nat) (x y : A) :
  l !! i = Some x ->
  sum_list_with g (<[i := y]> l) + g x = sum_list_with g l + g y.
Proof.
  revert i; induction l as [|a l IH]; intros [|i] Hi; simpl in *; try done.
  - by simplify_eq; lia.
  - specialize (IH i Hi); lia.
Qed.

Lemma send_proceeds {A : Type} (x : A) (c c' : Chan.chan A) :
  Chan.send x c = Chan.Proceeds c' ->
  Chan.closed c = false /\ Chan.closed c' = false /\ Chan.cap c' = Chan.cap c /\
  Chan.buf c' = Chan.buf c ++ [x] /\ length (Chan.buf c) < Chan.cap c.
Proof.
  unfold Chan.send; intros H.
  destruct (Chan.closed c); [done|].
  destruct (Nat.ltb_spec (length (Chan.buf c)) (Chan.cap c)); [|done].
  by simplify_eq.
Qed.

Lemma recv_proceeds {A : Type} (c c' : Chan.chan A) (o : option A) :
  Chan.recv c = Chan.Proceeds (o, c') ->
  Chan.cap c' = Chan.cap c /\ Chan.closed c' = Chan.closed c /\
  match o with
  | Some x => Chan.buf c = x :: Chan.buf c'
  | None => Chan.buf c = [] /\ Chan.buf c' = [] /\ Chan.closed c = true
  end.
Proof.
  unfold Chan.recv; intros H.
  destruct (Chan.buf c) eqn:Hb.
  - destruct (Chan.closed c) eqn:Hc; [|done]. simplify_eq. by rewrite Hb.
  - by simplify_eq.
Qed.

Lemma close_proceeds {A : Type} (c c' : Chan.chan A) :
  Chan.close c = Chan.Proceeds c' ->
  Chan.cap c' = Chan.cap c /\ Chan.buf c' = Chan.buf c /\ Chan.closed c' = true.
Proof. unfold Chan.close; destruct (Chan.closed c); intros; by simplify_eq. Qed.

Lemma meets_receiver_true {A : Type} (c : Chan.chan A) :
  Chan.meets_receiver c = true -> Chan.closed c = false /\ Chan.buf c = [].
Proof.
  unfold Chan.meets_receiver; intros [H1 H2]%andb_prop.
  apply negb_true_iff in H1. by apply bool_decide_eq_true in H2.
Qed.

Lemma sum_list_with_lookup {A : Type} (g : A -> nat) (l : list A) (i : nat) (x : A) :
  l !! i = Some x -> g x <= sum_list_with g l.
Proof.
  revert i; induction l as [|a l IH]; intros [|i] Hi; simpl in *; try done.
  - simplify_eq; lia.
  - specialize (IH i Hi); lia.
Qed.

Ltac chan_facts :=
  repeat match goal with
  | H : Chan.send _ _ = Chan.Proceeds _ |- _ =>
      apply send_proceeds in H; destruct H as (? & ? & ? & ? & ?)
  | H : Chan.recv _ = Chan.Proceeds _ |- _ =>
      apply recv_proceeds in H; destruct H as (? & ? & ?)
  | H : Chan.close _ = Chan.Proceeds _ |- _ =>
      apply close_proceeds in H; destruct H as (? & ? & ?)
  | H : Chan.meets_receiver _ = true |- _ =>
      apply meets_receiver_true in H; destruct H as (? & ?)
  | H : match ?o with Some _ => _ | None => _ end |- _ =>
      destruct o; [|destruct H as (? & ? & ?)]
  | H : _ /\ _ |- _ => destruct H as [? ?]
  end.

Ltac split_matches H :=
  repeat match type of H with
  | match ?x with _ => _ end = _ => destruct x eqn:?
  | (if ?x then _ else _) = _ => destruct x eqn:?
  end.

Ltac use_buffers :=
  repeat match goal with
  | H : Chan.buf _ = _ |- _ => rewrite H in *
  end.

End ChanFacts.

(** * The program of main.go *)
Module MainSpec.
Import Main.

Local Open Scope string_scope.

(** C9: run in any world, [main] appends the line "Effective Go", newline
    included, to standard output and changes nothing else. *)
Theorem main_prints_effective_go (w : world) :
  main w =
  (tt, {| os_args := os_args w; environ := environ w; stdin := stdin w;
          stdout := String.append (stdout w)
                      (String.append "Effective Go" (String "010"%char EmptyString)) |}).
Proof.
  unfold main, Println. cbn [String.concat].
  reflexivity.
Qed.

(** C10: [main] is a total function of the world; in any two worlds it
    writes the same text, and it leaves the arguments, the environment and
    standard input as they were. *)
Theorem main_output_is_independent_of_input (w1 w2 : world) :
  exists out : string,
    stdout (snd (main w1)) = String.append (stdout w1) out /\
    stdout (snd (main w2)) = String.append (stdout w2) out /\
    stdin (snd (main w1)) = stdin w1 /\
    os_args (snd (main w1)) = os_args w1 /\
    environ (snd (main w1)) = environ w1.
Proof.
  exists (String.append "Effective Go" newline).
  split_and!; reflexivity.
Qed.

End MainSpec.

(** * The semaphore bounds the running bodies *)
Module SemSpec.
Import Sem.
Import ChanFacts.

Lemma holders_set_thread (st : state) (t : nat) (th th' : thread) :
  threads st !! t = Some th ->
  holders (set_thread t th' st) + holding th = holders st + holding th'.
Proof. intros; unfold holders; simpl; by apply sum_list_with_insert. Qed.

Lemma holders_spawn (st : state) (l : loc) :
  holders (spawn l st) = holders st + holding (Thread l 0 0).
Proof. unfold holders; simpl. rewrite sum_list_with_app; simpl; lia. Qed.

Ltac holders_of Ht Hpc :=
  try match goal with
  | |- context [holders (set_thread ?t ?th' ?s)] =>
      let E := fresh "E" in
      pose proof (holders_set_thread s t _ th' Ht) as E;
      unfold holding in E; cbn in E; rewrite ?Hpc in E
  end.

Ltac close_inv :=
  unfold holders in *; cbn in *; use_buffers;
  rewrite ?length_app in *; cbn in *;
  split_and!; first [congruence | lia].

Lemma gate_step_inv (st st' : state) (a : action) :
  step st a = Some st' -> inv st -> inv st'.
Proof.
  unfold step, inv, inUse, capacity; intros Hs (Hopen & Hh & Hc).
  destruct (crashed st); [done|].
  destruct a as [r| |r|r t| |t|t|s r].
  - simplify_eq. rewrite holders_spawn. close_inv.
  - simplify_eq. rewrite holders_spawn. close_inv.
  - destruct (Chan.send r (queue st)); by simplify_eq.
  - destruct (threads st !! t) as [th|] eqn:Ht; [|done].
    destruct (pc th) eqn:Hpc; try done.
    split_matches Hs; simplify_eq.
    cbn [sem set_thread]. holders_of Ht Hpc. close_inv.
  - destruct (Chan.close (queue st)); by simplify_eq.
  - destruct (threads st !! t) as [th|] eqn:Ht; [|done].
    unfold run_thread in Hs.
    destruct (pc th) eqn:Hpc; cbn in Hs; try done.
    all: split_matches Hs; simplify_eq; chan_facts.
    all: cbn [sem with_sem with_queue set_thread spawn crash].
    all: rewrite ?holders_spawn.
    all: holders_of Ht Hpc.
    all: close_inv.
  - destruct (threads st !! t) as [th|] eqn:Ht; [|done].
    destruct (pc th) eqn:Hpc; cbn in Hs; try done; simplify_eq.
    all: change (holders (crash ?x)) with (holders x); holders_of Ht Hpc; close_inv.
  - destruct (threads st !! s) as [ths|] eqn:Hts; [|done].
    destruct (threads st !! r) as [thr|] eqn:Htr; [|done].
    destruct (after_acquire (pc ths)) as [ls|] eqn:Hls; [|done].
    destruct (after_release (pc thr)) as [lr|] eqn:Hlr; [|done].
    split_matches Hs; simplify_eq; chan_facts.
    assert (Hhold : holding thr = 1).
    { unfold holding. destruct (pc thr); by simplify_eq. }
    assert (Hsum : 1 <= holders st).
    { unfold holders.
      pose proof (sum_list_with_insert holding (threads st) r thr thr Htr). 
      rewrite <- (list_insert_id (threads st) r thr Htr).
      pose proof (sum_list_with_insert holding (threads st) r thr (Thread HDone 0 0) Htr) as E.
      cbn in E. rewrite list_insert_id by done. lia. }
    use_buffers. cbn in *. lia.
Qed.

Lemma gate_init_inv (MaxOutstanding qcap : nat) : inv (init MaxOutstanding qcap).
Proof. unfold inv, holders, inUse, capacity; cbn; split_and!; [done|done|lia]. Qed.

Lemma gate_next_inv (st : state) (a : action) : inv st -> inv (next st a).
Proof.
  unfold next; destruct (step st a) eqn:Hs; [|done].
  intros; eapply gate_step_inv; eauto.
Qed.

Lemma gate_run_inv (tr : list action) (st : state) : inv st -> inv (run tr st).
Proof.
  revert st; induction tr as [|a tr IH]; intros st Hst; [done|].
  apply IH, gate_next_inv, Hst.
Qed.

Lemma running_le_holding (th : thread) : running th <= holding th.
Proof. unfold running, holding; destruct (pc th); lia. Qed.

Lemma executing_le_holders (st : state) : executing st <= holders st.
Proof.
  unfold executing, holders.
  induction (threads st) as [|th l IH]; cbn; [lia|].
  pose proof (running_le_holding th); lia.
Qed.

(** No move changes the capacity of [sem], and no move takes the counter
    above it. *)
Lemma step_gate (st st' : state) (a : action) :
  step st a = Some st' ->
  capacity st' = capacity st /\ (gate_ok st -> gate_ok st').
Proof.
  unfold step, gate_ok, inUse, capacity; intros Hs.
  destruct (crashed st); [done|].
  destruct a as [r| |r|r t| |t|t|s r]; cbn in Hs.
  all: try (destruct (threads st !! t) as [th|] eqn:Ht; [|done]).
  all: try unfold run_thread in Hs.
  all: split_matches Hs; simplify_eq; chan_facts; cbn; use_buffers;
       rewrite ?length_app in *; cbn in *; split; first [congruence | lia].
Qed.

Lemma next_gate (st : state) (a : action) :
  capacity (next st a) = capacity st /\ (gate_ok st -> gate_ok (next st a)).
Proof.
  unfold next; destruct (step st a) eqn:Hs; [|done].
  cbn; eapply step_gate; eauto.
Qed.

Lemma run_capacity (tr : list action) (st : state) :
  capacity (run tr st) = capacity st.
Proof.
  revert st; induction tr as [|a tr IH]; intros st; [done|].
  cbn. rewrite IH. apply next_gate.
Qed.

(** C1: whatever the capacity [MaxOutstanding] of [sem] and whatever the
    goroutines do, in every state the program reaches the number of bodies
    inside [process] is at most the gate counter, the counter lies between
    0 and the capacity, and so at most [MaxOutstanding] bodies run at once;
    and every move, the acquire [sem <- 1] and the release [<-sem] among
    them, keeps [0 <= inUse <= capacity]. *)
Theorem gate_bounds_running_bodies (MaxOutstanding qcap : nat) :
  (forall tr : list action,
     let st := run tr (init MaxOutstanding qcap) in
     capacity st = MaxOutstanding /\
     executing st <= inUse st /\ gate_ok st /\ executing st <= MaxOutstanding) /\
  (forall (st : state) (a : action), gate_ok st -> gate_ok (next st a)).
Proof.
  split.
  - intros tr st.
    destruct (gate_run_inv tr _ (gate_init_inv MaxOutstanding qcap)) as (_ & Hh & Hc).
    fold st in Hh, Hc.
    assert (Hcap : capacity st = MaxOutstanding) by apply run_capacity.
    pose proof (executing_le_holders st).
    unfold gate_ok. split_and!; lia.
  - intros st a. apply next_gate.
Qed.

(** C1 at one slot and two callers of [handle]: the second cannot enter. *)
Lemma gate_bounds_running_bodies_witness :
  gate_ok (next (next (init 1 0) (CallHandle 7)) (Run 0)) /\
  executing (run [CallHandle 7; CallHandle 8; Run 0; Run 1] (init 1 0)) <= 1.
Proof.
  split.
  - apply (proj2 (gate_bounds_running_bodies 1 0)). vm_compute. lia.
  - apply (proj1 (gate_bounds_running_bodies 1 0)).
Defined.

Lemma step_paired (st st' : state) (a : action) :
  step st a = Some st' -> Forall paired (threads st) -> Forall paired (threads st').
Proof.
  unfold step; intros Hs Hall.
  destruct (crashed st); [done|].
  destruct a as [r| |r|r t| |t|t|s r]; cbn in Hs.
  all: try (destruct (threads st !! t) as [th|] eqn:Ht; [|done];
            pose proof (Forall_lookup_1 _ _ _ _ Hall Ht) as Hth).
  all: try unfold run_thread in Hs.
  - simplify_eq; cbn. apply Forall_app; split; [done|]. by repeat constructor.
  - simplify_eq; cbn. apply Forall_app; split; [done|]. by repeat constructor.
  - split_matches Hs; by simplify_eq.
  - split_matches Hs; simplify_eq; cbn. by apply Forall_insert.
  - split_matches Hs; by simplify_eq.
  - unfold paired in Hth.
    split_matches Hs; simplify_eq; cbn in *; simplify_eq;
      rewrite ?Forall_app; repeat split; try apply Forall_insert; try done;
      try (by repeat constructor).
    all: unfold paired; cbn; lia.
  - unfold paired in Hth.
    destruct (pc th); cbn in Hs; simplify_eq; cbn;
      (apply Forall_insert; [done|]); unfold paired; cbn; lia.
  - destruct (threads st !! s) as [ths|] eqn:Hts; [|done].
    destruct (threads st !! r) as [thr|] eqn:Htr; [|done].
    pose proof (Forall_lookup_1 _ _ _ _ Hall Hts) as Hs1.
    pose proof (Forall_lookup_1 _ _ _ _ Hall Htr) as Hr1.
    unfold paired in Hs1, Hr1.
    destruct (pc ths), (pc thr); cbn in Hs; try done.
    all: split_matches Hs; simplify_eq; cbn.
    all: apply Forall_insert; [apply Forall_insert; [done|]|].
    all: unfold paired; cbn; lia.
Qed.

Lemma run_paired (tr : list action) (st : state) :
  Forall paired (threads st) -> Forall paired (threads (run tr st)).
Proof.
  revert st; induction tr as [|a tr IH]; intros st Hst; [done|].
  apply IH. unfold next. destruct (step st a) eqn:Hs; [|done].
  cbn; eapply step_paired; eauto.
Qed.

(** C5, amended: a goroutine that has returned from [handle] has completed
    exactly one acquire and exactly one release, and a goroutine inside
    [process] has completed its acquire and no release yet: no body starts
    without the acquire. *)
Theorem handle_pairs_acquire_with_release
    (MaxOutstanding qcap : nat) (tr : list action) (t : nat) (th : thread) :
  threads (run tr (init MaxOutstanding qcap)) !! t = Some th ->
  (pc th = HDone -> acquires th = 1 /\ releases th = 1) /\
  (forall r, pc th = HProcess r -> acquires th = 1 /\ releases th = 0).
Proof.
  intros Ht.
  assert (Hall : Forall paired (threads (run tr (init MaxOutstanding qcap)))).
  { apply run_paired. constructor. }
  pose proof (Forall_lookup_1 _ _ _ _ Hall Ht) as Hth.
  unfold paired in Hth.
  split; [|intros r]; intros Hpc; by rewrite Hpc in Hth.
Qed.

(** C5, amended, on one call of [handle] that runs to its end. *)
Lemma handle_pairs_acquire_with_release_witness :
  threads (run [CallHandle 7; Run 0; Run 0; Run 0] (init 1 0)) !! 0 = Some (Thread HDone 1 1) /\
  (pc (Thread HDone 1 1) = HDone -> acquires (Thread HDone 1 1) = 1 /\ releases (Thread HDone 1 1) = 1).
Proof.
  split; [reflexivity|].
  apply (handle_pairs_acquire_with_release 1 0 [CallHandle 7; Run 0; Run 0; Run 0] 0).
  reflexivity.
Defined.

(** C5 as stated fails: [handle] has no deferred release. When [process]
    panics in the only call of [handle], the goroutine has acquired once and
    released never, the slot stays taken, and the program makes no further
    move. *)
Lemma panic_in_handle_keeps_slot :
  let st := run [CallHandle 7; Run 0; PanicIn 0] (init 1 0) in
  threads st !! 0 = Some (Thread HPanicked 1 0) /\ inUse st = 1 /\
  crashed st = true /\ forall a, step st a = None.
Proof. vm_compute. split_and!; done. Qed.
End SemSpec.

(** * The pool of handlers *)
Module PoolSpec.
Import Pool.
Import ChanFacts.

Lemma occ_app (i : nat) (l k : list nat) : occ i (l ++ k) = occ i l + occ i k.
Proof. apply sum_list_with_app. Qed.

Lemma occ_snoc (i r : nat) (l : list nat) :
  occ i (l ++ [r]) = occ i l + (if decide (r = i) then 1 else 0).
Proof. rewrite occ_app; unfold occ; cbn; lia. Qed.

Lemma busy_snoc (i : nat) (ws : list loc) (l : loc) :
  busy i (ws ++ [l]) = busy i ws + (if decide (current l = Some i) then 1 else 0).
Proof. unfold busy; rewrite sum_list_with_app; cbn; lia. Qed.

Lemma occ_seq (i a n : nat) : occ i (seq a n) = if decide (a <= i < a + n) then 1 else 0.
Proof.
  revert a; induction n as [|n IH]; intros a; unfold occ; cbn.
  - case_decide; [lia|done].
  - fold (occ i (seq (S a) n)). rewrite IH. repeat case_decide; lia.
Qed.

Lemma busy_lookup (ws : list loc) (w i : nat) (l : loc) :
  ws !! w = Some l -> current l = Some i -> 1 <= busy i ws.
Proof.
  intros Hw Hc. unfold busy.
  pose proof (sum_list_with_lookup
    (fun l => if decide (current l = Some i) then 1 else 0) ws w l Hw) as H.
  cbn in H. rewrite decide_True in H by done. done.
Qed.

Lemma busy_insert (ws : list loc) (w i : nat) (l l' : loc) :
  ws !! w = Some l ->
  busy i (<[w := l']> ws) + (if decide (current l = Some i) then 1 else 0) =
  busy i ws + (if decide (current l' = Some i) then 1 else 0).
Proof.
  intros Hw. unfold busy.
  exact (sum_list_with_insert
           (fun l => if decide (current l = Some i) then 1 else 0) ws w l l' Hw).
Qed.

Lemma inv_begun_le (st : state) (i : nat) :
  inv st -> occ i (begun st) <= if decide (i < length (heap st)) then 1 else 0.
Proof.
  intros [Hf _ _ _].
  pose proof (occ_app i (begun st) (Chan.buf (clientRequests st))) as H.
  rewrite Hf, occ_seq in H. repeat case_decide; lia.
Qed.

Lemma inv_busy_bound (st : state) (w i : nat) (l : loc) :
  inv st -> workers st !! w = Some l -> current l = Some i ->
  i < length (heap st) /\ occ i (finished st) = 0 /\ busy i (workers st) = 1.
Proof.
  intros Hinv Hw Hc.
  pose proof (busy_lookup _ _ _ _ Hw Hc).
  pose proof (inv_begun_le st i Hinv).
  pose proof (inv_once st Hinv i).
  case_decide; lia.
Qed.

Lemma inv_fresh (st : state) :
  inv st -> occ (length (heap st)) (begun st) = 0 /\
            occ (length (heap st)) (finished st) = 0 /\
            busy (length (heap st)) (workers st) = 0.
Proof.
  intros Hinv.
  pose proof (inv_begun_le st (length (heap st)) Hinv).
  pose proof (inv_once st Hinv (length (heap st))).
  case_decide; lia.
Qed.

Lemma pool_init_inv (qcap quitcap : nat) : inv (init qcap quitcap).
Proof.
  split; cbn; done.
Qed.

Ltac decide_cases :=
  repeat case_decide; simplify_eq; try lia; try congruence.

Ltac other_task H :=
  apply list_lookup_insert_Some in H as [(? & ? & ?) | (? & ?)]; simplify_eq.

(** A handler other than [w] is where it was. *)
Ltac other_worker H :=
  apply list_lookup_insert_Some in H as [(? & ? & ?) | (? & ?)]; simplify_eq.

Lemma value_insert_worker (st : state) (w : nat) (l : loc) :
  inv st ->
  (forall i v, l = Replying i v ->
     forall t, heap st !! i = Some t -> v = outcome_of (req t)) ->
  forall i t v, heap st !! i = Some t ->
    v ∈ written t \/ (exists w', <[w := l]> (workers st) !! w' = Some (Replying i v)) ->
    v = outcome_of (req t).
Proof.
  intros Hinv Hl i t v Ht [Hv | [w' Hw']].
  - eapply inv_value; eauto.
  - other_worker Hw'.
    + eapply Hl; eauto.
    + eapply inv_value; eauto.
Qed.

Lemma launch_inv (M : nat) (st st' : state) :
  launch M st = Some st' -> inv st -> inv st'.
Proof.
  unfold launch; intros Hs Hinv.
  split_matches Hs; simplify_eq; destruct Hinv as [Hf Ho Hw Hv]; split; cbn; try done.
  - intros j. rewrite busy_snoc, Ho. cbn. decide_cases.
  - intros j t v Ht [Hin | [w Hw']]; [eauto|].
    apply lookup_snoc_Some in Hw' as [(? & ?) | (? & ?)]; [eauto | done].
Qed.

Lemma pull_inv (w : nat) (st st' : state) :
  pull w st = Some st' -> inv st -> inv st'.
Proof.
  unfold pull; intros Hs Hinv.
  destruct (workers st !! w) as [l|] eqn:Hw; [|done].
  destruct l; try done.
  split_matches Hs; simplify_eq; chan_facts.
  - split; cbn.
    + rewrite <- app_assoc; cbn.
      replace (n :: Chan.buf c) with (Chan.buf (clientRequests st)) by done.
      apply Hinv.
    + intros i. rewrite occ_snoc.
      pose proof (busy_insert _ _ i _ (Computing n) Hw) as E. cbn in E.
      pose proof (inv_once st Hinv i). decide_cases.
    + apply Hinv.
    + apply (value_insert_worker st); [done|]. intros; simplify_eq.
  - split; cbn.
    + replace (Chan.buf c) with (Chan.buf (clientRequests st)) by congruence.
      apply Hinv.
    + intros i.
      pose proof (busy_insert _ _ i _ Exited Hw) as E. cbn in E.
      pose proof (inv_once st Hinv i). decide_cases.
    + apply Hinv.
    + apply (value_insert_worker st); [done|]. intros; simplify_eq.
Qed.

Lemma compute_inv (w : nat) (st st' : state) :
  compute w st = Some st' -> inv st -> inv st'.
Proof.
  unfold compute; intros Hs Hinv.
  destruct (workers st !! w) as [l|] eqn:Hw; [|done].
  destruct l; try done.
  destruct (heap st !! r) as [t|] eqn:Ht; [|done].
  simplify_eq.
  split; cbn; try apply Hinv.
  - intros i.
    pose proof (busy_insert _ _ i _ (Replying r (outcome_of (req t))) Hw) as E. cbn in E.
    pose proof (inv_once st Hinv i). decide_cases.
  - apply (value_insert_worker st); [done|]. intros; by simplify_eq.
Qed.

(** The invariant looks only at the buffer of [clientRequests], the
    handlers, the requests in memory and the two logs. *)
Lemma inv_ext (st st' : state) :
  Chan.buf (clientRequests st') = Chan.buf (clientRequests st) ->
  workers st' = workers st -> heap st' = heap st ->
  begun st' = begun st -> finished st' = finished st ->
  inv st -> inv st'.
Proof.
  intros Hq Hw Hh Hb Hf [H1 H2 H3 H4].
  split; rewrite ?Hq, ?Hw, ?Hh, ?Hb, ?Hf; done.
Qed.

(** A client's move changes neither what was written on a reply channel
    nor the request itself. *)
Lemma retask_inv (st : state) (i : nat) (t t2 : task) :
  heap st !! i = Some t ->
  args (req t2) = args (req t) -> f (req t2) = f (req t) ->
  written t2 = written t ->
  inv st -> inv (set_task i t2 st).
Proof.
  intros Ht Ha Hf Hwr Hinv. split; cbn.
  - rewrite length_insert. apply Hinv.
  - apply Hinv.
  - intros j t' Hj. other_task Hj.
    + rewrite Hwr. by apply Hinv.
    + by apply Hinv.
  - intros j t' v Hj Hv. other_task Hj.
    + unfold outcome_of. rewrite Ha, Hf. eapply inv_value; eauto. by rewrite <- Hwr.
    + eapply inv_value; eauto.
Qed.

(** The send on [r.resultChan] completes: handler [w] is idle again, the
    value is recorded as written, the request as finished. *)
Lemma deliver_inv (st : state) (w r : nat) (v : outcome) (t : task)
    (c : Chan.chan outcome) (o : client) :
  workers st !! w = Some (Replying r v) -> heap st !! r = Some t ->
  inv st ->
  inv (log_finished r (set_worker w Idle (set_task r (sent v c o t) st))).
Proof.
  intros Hw Ht Hinv.
  destruct (inv_busy_bound st w r _ Hinv Hw eq_refl) as (Hr & Hfin & Hbusy).
  split; cbn.
  - rewrite length_insert. apply Hinv.
  - intros i. rewrite occ_snoc.
    pose proof (busy_insert _ _ i _ Idle Hw) as E. cbn in E.
    pose proof (inv_once st Hinv i). decide_cases.
  - intros j t' Hj. rewrite occ_snoc. other_task Hj.
    + cbn. rewrite length_app; cbn. rewrite (inv_written st Hinv j t Ht). decide_cases.
    + rewrite (inv_written st Hinv j t' ltac:(done)). decide_cases.
  - intros j t' v' Hj Hv. other_task Hj.
    + cbn. eapply inv_value; eauto.
      destruct Hv as [Hv | [w' Hw']].
      * cbn in Hv. apply elem_of_app in Hv as [Hv | Hv]; [by left|].
        apply list_elem_of_singleton in Hv as ->. right; eauto.
      * other_worker Hw'. right; eauto.
    + eapply inv_value; eauto.
      destruct Hv as [Hv | [w' Hw']]; [by left|].
      other_worker Hw'. right; eauto.
Qed.

Lemma reply_inv (w : nat) (st st' : state) :
  reply w st = Some st' -> inv st -> inv st'.
Proof.
  unfold reply; intros Hs Hinv.
  destruct (workers st !! w) as [l|] eqn:Hw; [|done].
  destruct l; try done.
  destruct (heap st !! r) as [t|] eqn:Ht; [|done].
  split_matches Hs; simplify_eq.
  - by apply deliver_inv.
  - by apply deliver_inv.
  - eapply inv_ext; [..|exact Hinv]; done.
Qed.

Lemma collect_inv (i : nat) (st st' : state) :
  collect i st = Some st' -> inv st -> inv st'.
Proof.
  unfold collect; intros Hs Hinv.
  destruct (heap st !! i) as [t|] eqn:Ht; [|done].
  split_matches Hs; simplify_eq; by eapply retask_inv.
Qed.

Lemma abandon_inv (i : nat) (st st' : state) :
  abandon i st = Some st' -> inv st -> inv st'.
Proof.
  unfold abandon; intros Hs Hinv.
  destruct (heap st !! i) as [t|] eqn:Ht; [|done].
  split_matches Hs; simplify_eq; by eapply retask_inv.
Qed.

(** A new request: nothing has been written on its channel and no handler
    works on it yet. *)
Lemma fresh_task (st : state) (ws : list loc) (a : list Z)
    (g : list Z -> option Z) (rcap : nat) :
  inv st ->
  (forall w i v, ws !! w = Some (Replying i v) ->
     exists w', workers st !! w' = Some (Replying i v)) ->
  (forall i t, (heap st ++ [new_task a g rcap]) !! i = Some t ->
     length (written t) = occ i (finished st)) /\
  (forall i t v, (heap st ++ [new_task a g rcap]) !! i = Some t ->
     v ∈ written t \/ (exists w, ws !! w = Some (Replying i v)) ->
     v = outcome_of (req t)).
Proof.
  intros Hinv Hws.
  destruct (inv_fresh st Hinv) as (Hb & Hf & Hbusy).
  split.
  - intros i t Hi. apply lookup_snoc_Some in Hi as [(? & ?) | (-> & <-)].
    + by apply Hinv.
    + cbn. lia.
  - intros i t v Hi Hv.
    assert (Hv' : v ∈ written t \/ exists w, workers st !! w = Some (Replying i v)).
    { destruct Hv as [Hv | (w & Hw)]; [by left | right; eauto]. }
    apply lookup_snoc_Some in Hi as [(? & ?) | (-> & <-)].
    + eapply inv_value; eauto.
    + destruct Hv' as [Hv' | (w & Hw)].
      * cbn in Hv'. by apply elem_of_nil in Hv'.
      * pose proof (busy_lookup _ _ _ _ Hw eq_refl). lia.
Qed.

Lemma pool_step_inv (M : nat) (st st' : state) (a : action) :
  step M st a = Some st' -> inv st -> inv st'.
Proof.
  unfold step; intros Hs Hinv.
  destruct (crashed st); [done|].
  destruct a as [| | | | |ar g rcap|ar g rcap w| |w|w|w|i|i].
  - by eapply launch_inv.
  - split_matches Hs; simplify_eq; (eapply inv_ext; [..|exact Hinv]; done).
  - split_matches Hs; simplify_eq; (eapply inv_ext; [..|exact Hinv]; done).
  - split_matches Hs; simplify_eq; (eapply inv_ext; [..|exact Hinv]; done).
  - split_matches Hs; simplify_eq; (eapply inv_ext; [..|exact Hinv]; done).
  - split_matches Hs; simplify_eq; chan_facts.
    + destruct (fresh_task st (workers st) ar g rcap Hinv) as [Hwr Hval]; [eauto|].
      split; cbn; try done.
      * rewrite length_app; cbn. rewrite Nat.add_1_r, seq_S; cbn.
        use_buffers. rewrite app_assoc. f_equal. apply Hinv.
      * apply Hinv.
    + eapply inv_ext; [..|exact Hinv]; done.
  - destruct (workers st !! w) as [l|] eqn:Hw; [|done].
    destruct l; try done.
    split_matches Hs; simplify_eq; chan_facts.
    destruct (fresh_task st (<[w := Computing (length (heap st))]> (workers st))
                ar g rcap Hinv) as [Hwr Hval].
    { intros w' i v Hw'. other_worker Hw'. eauto. }
    split; cbn; try done.
    + rewrite length_app; cbn. rewrite Nat.add_1_r, seq_S; cbn.
      pose proof (inv_fifo st Hinv) as Hf. use_buffers.
      rewrite app_nil_r in *. by f_equal.
    + intros i. rewrite occ_snoc.
      pose proof (busy_insert _ _ i _ (Computing (length (heap st))) Hw) as E. cbn in E.
      pose proof (inv_once st Hinv i). decide_cases.
  - split_matches Hs; simplify_eq; chan_facts;
      (eapply inv_ext; [..|exact Hinv]; done).
  - by eapply pull_inv.
  - by eapply compute_inv.
  - by eapply reply_inv.
  - by eapply collect_inv.
  - by eapply abandon_inv.
Qed.

Lemma pool_run_inv (M : nat) (tr : list action) (st : state) :
  inv st -> inv (run M tr st).
Proof.
  revert st; induction tr as [|a tr IH]; intros st Hst; [done|].
  apply IH. unfold next. destruct (step M st a) eqn:Hs; [|done].
  cbn; eapply pool_step_inv; eauto.
Qed.




Lemma seq_split (l k : list nat) (n : nat) :
  l ++ k = seq 0 n -> l = seq 0 (length l) /\ k = seq (length l) (length k).
Proof.
  intros H.
  assert (Hn : n = length l + length k).
  { apply (f_equal length) in H. rewrite length_app, length_seq in H. lia. }
  rewrite Hn, seq_app in H.
  apply app_inj_1 in H; [done|by rewrite length_seq].
Qed.

Lemma occ_elem (i : nat) (l : list nat) : 1 <= occ i l -> i ∈ l.
Proof.
  unfold occ; induction l as [|a l IH]; cbn; [lia|].
  case_decide; [subst; left | right; apply IH; lia].
Qed.

Lemma busy_elem (i : nat) (ws : list loc) :
  1 <= busy i ws -> exists w l, ws !! w = Some l /\ current l = Some i.
Proof.
  unfold busy; induction ws as [|a ws IH]; cbn; [lia|].
  case_decide.
  - exists 0, a; done.
  - intros H'. destruct IH as (w & l & ? & ?); [lia|]. exists (S w), l; done.
Qed.

Lemma elem_occ (i : nat) (l : list nat) : i ∈ l -> 1 <= occ i l.
Proof.
  unfold occ; induction 1; cbn; [rewrite decide_True by done; lia | lia].
Qed.

(** ** Runs *)





(** ** What the invariant says of one request *)




(** ** The moves of a handler in a state where it can go on *)


(** [for r := range queue] with a request in the buffer: the handler takes
    the oldest one. *)
Lemma pull_oldest (M : nat) (st : state) (w r : nat) (rest : list nat) :
  crashed st = false -> workers st !! w = Some Idle ->
  Chan.buf (clientRequests st) = r :: rest ->
  step M st (Pull w) =
    Some (log_begun r (set_worker w (Computing r)
            (with_queue (Chan.Make (Chan.cap (clientRequests st)) rest
                           (Chan.closed (clientRequests st))) st))).
Proof.
  intros Hc Hw Hbuf. unfold step, pull, Chan.recv. by rewrite Hc, Hw, Hbuf.
Qed.








(** ** The handlers [Serve] has started *)

Lemma step_launched (M : nat) (st st' : state) (a : action) :
  step M st a = Some st' -> launched M st -> launched M st'.
Proof.
  unfold step, launched; intros Hs Hl.
  destruct (crashed st); [done|].
  destruct a as [| | | | |ar g rcap|ar g rcap w| |w|w|w|i|i]; cbn in Hs.
  { unfold launch in Hs. destruct (serve st) as [i| |] eqn:Hserve; try done.
    destruct (Nat.ltb_spec i M); simplify_eq; cbn; rewrite ?length_app; cbn; lia. }
  all: unfold pull, compute, reply, collect, abandon in Hs.
  all: split_matches Hs; simplify_eq; cbn in *; rewrite ?length_insert; done.
Qed.

Lemma run_launched (M qcap quitcap : nat) (tr : list action) :
  launched M (run M tr (init qcap quitcap)).
Proof.
  assert (H : forall st, launched M st -> launched M (run M tr st)).
  { induction tr as [|a tr IH]; intros st Hst; [done|].
    apply IH. unfold next. destruct (step M st a) eqn:Hs; [|done].
    cbn. eapply step_launched; eauto. }
  apply H. unfold launched; cbn. lia.
Qed.

Lemma launched_le (M : nat) (st : state) :
  launched M st -> length (workers st) <= M.
Proof. unfold launched. destruct (serve st); lia. Qed.

(** With at most one handler the requests finish in the order in which
    they were received. *)
Lemma step_serial (M : nat) (st st' : state) (a : action) :
  step M st a = Some st' ->
  (length (workers st) <= 1 -> finished st ++ omap current (workers st) = begun st) ->
  length (workers st') <= 1 ->
  finished st' ++ omap current (workers st') = begun st'.
Proof.
  unfold step; intros Hs IH Hlen.
  destruct (crashed st); [done|].
  destruct a as [| | | | |ar g rcap|ar g rcap w| |w|w|w|i|i]; cbn in Hs.
  all: unfold launch, pull, compute, reply, collect, abandon in Hs.
  all: split_matches Hs; simplify_eq; cbn in *; rewrite ?length_insert in *.
  all: try (by apply IH).
  all: destruct (workers st) as [|l0 [|l1 ws]] eqn:Hws; cbn in *;
       rewrite ?length_app in *; cbn in *; try lia.
  all: try (destruct w as [|w]; cbn in *; simplify_eq).
  all: try (specialize (IH ltac:(lia)); cbn in IH; rewrite ?app_nil_r in * ).
  all: try (rewrite <- IH; by rewrite <- ?app_assoc).
  all: try congruence.
Qed.

Lemma run_serial (qcap quitcap : nat) (tr : list action) :
  let st := run 1 tr (init qcap quitcap) in
  finished st ++ omap current (workers st) = begun st.
Proof.
  intros st.
  assert (H : forall st0,
    (length (workers st0) <= 1 -> finished st0 ++ omap current (workers st0) = begun st0) ->
    (length (workers (run 1 tr st0)) <= 1 ->
     finished (run 1 tr st0) ++ omap current (workers (run 1 tr st0)) = begun (run 1 tr st0))).
  { induction tr as [|a tr IH]; intros st0 Hst0; [done|].
    apply IH. unfold next. destruct (step 1 st0 a) eqn:Hs; [|done].
    cbn. by eapply step_serial. }
  apply H; [done|]. apply launched_le, run_launched.
Qed.

(** ** Where a panic can come from *)



(** ** What a client has received *)



(** ** The claims about the pool *)

(** C7: the requests received by the handlers, in the order of their
    receives, followed by the requests still buffered in [clientRequests],
    are the submitted requests in submission order, for any number of
    handlers; the buffer holds the next ones, oldest first. A send puts the
    new request behind the buffered ones, or hands it to an idle handler
    when nothing is buffered; an idle handler that finds requests in the
    buffer receives the oldest one and begins it. With one handler the
    requests are also finished in submission order. With two handlers the
    order of completion is free: of two requests begun in order either can
    finish first. *)
Theorem handlers_receive_in_submission_order :
  (forall (MaxOutstanding qcap quitcap : nat) (tr : list action),
     let st := run MaxOutstanding tr (init qcap quitcap) in
     begun st ++ Chan.buf (clientRequests st) = seq 0 (length (heap st)) /\
     begun st = seq 0 (length (begun st)) /\
     Chan.buf (clientRequests st) =
       seq (length (begun st)) (length (Chan.buf (clientRequests st)))) /\
  (forall (MaxOutstanding : nat) (st : state)
          (a : list Z) (g : list Z -> option Z) (rcap : nat),
     crashed st = false -> Chan.closed (clientRequests st) = false ->
     length (Chan.buf (clientRequests st)) < Chan.cap (clientRequests st) ->
     exists st', step MaxOutstanding st (Submit a g rcap) = Some st' /\
       Chan.buf (clientRequests st') =
         Chan.buf (clientRequests st) ++ [length (heap st)] /\
       begun st' = begun st) /\
  (forall (MaxOutstanding : nat) (st : state)
          (a : list Z) (g : list Z -> option Z) (rcap w : nat),
     crashed st = false -> workers st !! w = Some Idle ->
     Chan.meets_receiver (clientRequests st) = true ->
     exists st', step MaxOutstanding st (Handoff a g rcap w) = Some st' /\
       workers st' !! w = Some (Computing (length (heap st))) /\
       begun st' = begun st ++ [length (heap st)] /\
       Chan.buf (clientRequests st') = []) /\
  (forall (MaxOutstanding : nat) (st : state) (w r : nat) (rest : list nat),
     crashed st = false -> workers st !! w = Some Idle ->
     Chan.buf (clientRequests st) = r :: rest ->
     exists st', step MaxOutstanding st (Pull w) = Some st' /\
       workers st' !! w = Some (Computing r) /\
       begun st' = begun st ++ [r] /\
       Chan.buf (clientRequests st') = rest) /\
  (forall (qcap quitcap : nat) (tr : list action),
     let st := run 1 tr (init qcap quitcap) in
     finished st ++ omap current (workers st) = begun st /\
     finished st = seq 0 (length (finished st))) /\
  (exists tr : list action,
     let st := run 2 tr (init 2 0) in begun st = [0; 1] /\ finished st = [0; 1]) /\
  (exists tr : list action,
     let st := run 2 tr (init 2 0) in begun st = [0; 1] /\ finished st = [1; 0]).
Proof.
  split_and!.
  - intros M qcap quitcap tr st.
    pose proof (inv_fifo st (pool_run_inv M tr _ (pool_init_inv qcap quitcap))) as Hf.
    split; [done|]. by apply seq_split in Hf.
  - intros M st a g rcap Hc Hopen Hroom.
    unfold step, Chan.send. rewrite Hc, Hopen.
    apply Nat.ltb_lt in Hroom. rewrite Hroom.
    eexists; split_and!; reflexivity.
  - intros M st a g rcap w Hc Hw Hmeet.
    unfold step. rewrite Hc, Hw, Hmeet.
    eexists; split; [reflexivity|]. cbn.
    apply meets_receiver_true in Hmeet as [_ Hbuf].
    split_and!; [|done|done].
    apply list_lookup_insert_eq. by eapply lookup_lt_Some.
  - intros M st w r rest Hc Hw Hbuf.
    rewrite (pull_oldest M st w r rest Hc Hw Hbuf).
    eexists; split; [reflexivity|]. cbn.
    split_and!; [|done|done].
    apply list_lookup_insert_eq. by eapply lookup_lt_Some.
  - intros qcap quitcap tr st.
    pose proof (run_serial qcap quitcap tr) as Hs. fold st in Hs.
    split; [done|].
    pose proof (inv_fifo st (pool_run_inv 1 tr _ (pool_init_inv qcap quitcap))) as Hf.
    rewrite <- Hs, <- app_assoc in Hf.
    by apply seq_split in Hf as [? _].
  - exists [Launch; Launch;
            Submit [1]%Z (returns 1) 0; Submit [2]%Z (returns 2) 0;
            Pull 0; Pull 1; Compute 0; Reply 0; Compute 1; Reply 1].
    split; reflexivity.
  - exists [Launch; Launch;
            Submit [1]%Z (returns 1) 0; Submit [2]%Z (returns 2) 0;
            Pull 0; Pull 1; Compute 1; Reply 1; Compute 0; Reply 0].
    split; reflexivity.
Qed.

(** C7 on two queued requests and two idle handlers: the handler that
    receives gets request 0, the older one, and request 1 stays queued. *)
Lemma handlers_receive_in_submission_order_witness :
  let st := run 2 [Launch; Launch; Submit [1]%Z (returns 1) 0;
                   Submit [2]%Z (returns 2) 0] (init 2 0) in
  (crashed st = false /\ workers st !! 1 = Some Idle /\
   Chan.buf (clientRequests st) = [0; 1]) /\
  exists st', step 2 st (Pull 1) = Some st' /\
    workers st' !! 1 = Some (Computing 0) /\
    begun st' = begun st ++ [0] /\
    Chan.buf (clientRequests st') = [1].
Proof.
  split; [split_and!; reflexivity|].
  apply (proj1 (proj2 (proj2 (proj2 handlers_receive_in_submission_order)))
           2 _ 1 0 [1]); reflexivity.
Defined.





(** C8 as stated fails: the reply channel of the notes is [make(chan int)],
    without a buffer. Once the client has stopped waiting, the handler's
    send of 12 cannot proceed. *)
Lemma abandoned_reply_blocks_the_handler :
  let st := run 1 [Launch; Handoff [3; 4; 5]%Z (fun a => Some (sum a)) 0 0;
                   Abandon 0; Compute 0] (init 0 0) in
  workers st !! 0 = Some (Replying 0 (Result 12)) /\
  (exists t, heap st !! 0 = Some t /\ Chan.cap (resultChan (req t)) = 0 /\ written t = []) /\
  crashed st = false /\
  step 1 st (Reply 0) = None.
Proof.
  cbv zeta. split_and!; try reflexivity.
  eexists. split_and!; reflexivity.
Qed.

Ltac keep_worker :=
  match goal with
  | |- <[?w' := _]> (workers _) !! ?w = Some _ =>
      destruct (decide (w' = w)) as [->|];
      [simplify_eq; chan_facts; first [lia | congruence]
      |by rewrite list_lookup_insert_ne]
  | |- _ => done
  end.

Ltac keep_task :=
  match goal with
  | |- exists t, <[?r := _]> (heap _) !! ?i = Some t /\ _ =>
      destruct (decide (r = i)) as [->|];
      [simplify_eq; chan_facts; first [lia | congruence]
      |rewrite list_lookup_insert_ne by done; eauto]
  | |- exists t, (heap _ ++ _) !! _ = Some t /\ _ =>
      eexists; split; [by apply lookup_app_l_Some | done]
  | |- _ => eauto
  end.

Lemma step_stuck (M : nat) (w i : nat) (v : outcome) (st st' : state) (a : action) :
  step M st a = Some st' -> stuck w i v st -> stuck w i v st'.
Proof.
  unfold step, stuck; intros Hs (Hw & t & Ht & Hcap & Hown).
  destruct (crashed st); [done|].
  destruct a as [| | | | |ar g rcap|ar g rcap w'| |w'|w'|w'|j|j]; cbn in Hs.
  all: unfold launch, pull, compute, reply, collect, abandon in Hs.
  all: split_matches Hs; simplify_eq; cbn.
  all: split; [try (by apply lookup_app_l_Some); keep_worker | keep_task].
Qed.

Lemma run_stuck (M : nat) (w i : nat) (v : outcome) (tr : list action) (st : state) :
  stuck w i v st -> stuck w i v (run M tr st).
Proof.
  revert st; induction tr as [|a tr IH]; intros st Hst; [done|].
  apply IH. unfold next. destruct (step M st a) eqn:Hs; [|done].
  cbn; eapply step_stuck; eauto.
Qed.

(** C8, amended: the send on the reply channel completes, writing its one
    value, when the channel has room in its buffer or its client is
    receiving; on an unbuffered channel whose client has stopped waiting the
    handler stays at the send in every later state. *)
Theorem reply_needs_room_or_receiver (MaxOutstanding : nat) (st : state)
    (w i : nat) (v : outcome) (t : task) :
  workers st !! w = Some (Replying i v) ->
  heap st !! i = Some t ->
  (crashed st = false ->
   Chan.closed (resultChan (req t)) = false ->
   length (Chan.buf (resultChan (req t))) < Chan.cap (resultChan (req t)) \/
     (Chan.buf (resultChan (req t)) = [] /\ owner t = Awaiting) ->
   exists st' t', step MaxOutstanding st (Reply w) = Some st' /\
                  workers st' !! w = Some Idle /\
                  heap st' !! i = Some t' /\ written t' = written t ++ [v]) /\
  (Chan.cap (resultChan (req t)) = 0 -> owner t = Abandoned ->
   forall tr, workers (run MaxOutstanding tr st) !! w = Some (Replying i v)).
Proof.
  intros Hw Ht.
  assert (Hi : i < length (heap st)) by (by eapply lookup_lt_Some).
  assert (Hwl : w < length (workers st)) by (by eapply lookup_lt_Some).
  split.
  - intros Hc Hopen Hroom.
    unfold step, reply. rewrite Hc, Hw, Ht. unfold Chan.send, Chan.meets_receiver.
    rewrite Hopen.
    destruct (Nat.ltb_spec (length (Chan.buf (resultChan (req t))))
                           (Chan.cap (resultChan (req t)))) as [Hlt|Hge].
    + eexists _, _. split; [done|]. cbn.
      rewrite !list_lookup_insert_eq by done. done.
    + destruct Hroom as [?|[Hbuf Hown]]; [lia|].
      rewrite Hown, Hbuf. cbn.
      eexists _, _. split; [done|]. cbn.
      rewrite !list_lookup_insert_eq by done. done.
  - intros Hcap Hown tr.
    apply (run_stuck MaxOutstanding w i v tr st).
    split; [done|]. eauto.
Qed.

(** C3 as stated fails: after [quit] has been signalled and [Serve] has
    returned, a client's send is taken by the waiting handler (unbuffered
    [clientRequests]) or buffered (capacity 1); a request is created. *)
Lemma send_after_quit_is_accepted :
  let st := run 1 [Launch; Launch; TellServe] (init 0 0) in
  let st1 := run 1 [Launch; Launch; TellServe] (init 1 0) in
  signalled st = true /\ serve st = Returned /\
  (exists st', step 1 st (Handoff [3; 4; 5]%Z (fun a => Some (sum a)) 0 0) = Some st' /\
               length (heap st') = 1 /\ workers st' = [Computing 0]) /\
  signalled st1 = true /\ serve st1 = Returned /\
  (exists st', step 1 st1 (Submit [3; 4; 5]%Z (fun a => Some (sum a)) 0) = Some st' /\
               length (heap st') = 1 /\ Chan.buf (clientRequests st') = [0]).
Proof.
  cbv zeta. split_and!; try reflexivity.
  - eexists. split_and!; reflexivity.
  - eexists. split_and!; reflexivity.
Qed.

(** C3, amended: a send on [clientRequests] is treated the same whatever the
    state of [quit] and of [Serve]; there is no closed condition. While
    [clientRequests] is open the send is accepted, a request is created and
    queued, when the buffer has room; it is accepted by an idle handler,
    which begins the new request, when nothing is buffered; and it blocks
    when the buffer has no room and no idle handler can take it. On a
    closed [clientRequests] the send panics. *)
Theorem submission_does_not_look_at_quit (MaxOutstanding : nat) (st : state)
    (q : Chan.chan bool) (s : bool) (l : serve_loc) :
  (forall a g rcap,
     step MaxOutstanding (with_shutdown q s l st) (Submit a g rcap) =
     with_shutdown q s l <$> step MaxOutstanding st (Submit a g rcap)) /\
  (forall a g rcap w,
     step MaxOutstanding (with_shutdown q s l st) (Handoff a g rcap w) =
     with_shutdown q s l <$> step MaxOutstanding st (Handoff a g rcap w)) /\
  (forall a g rcap,
     crashed st = false ->
     Chan.closed (clientRequests st) = false ->
     length (Chan.buf (clientRequests st)) < Chan.cap (clientRequests st) ->
     exists st',
       step MaxOutstanding (with_shutdown q s l st) (Submit a g rcap) = Some st' /\
       heap st' = heap st ++ [new_task a g rcap] /\
       Chan.buf (clientRequests st') = Chan.buf (clientRequests st) ++ [length (heap st)]) /\
  (forall a g rcap w,
     crashed st = false ->
     Chan.closed (clientRequests st) = false ->
     Chan.buf (clientRequests st) = [] ->
     workers st !! w = Some Idle ->
     exists st',
       step MaxOutstanding (with_shutdown q s l st) (Handoff a g rcap w) = Some st' /\
       heap st' = heap st ++ [new_task a g rcap] /\
       workers st' !! w = Some (Computing (length (heap st))) /\
       crashed st' = false) /\
  (forall a g rcap,
     Chan.closed (clientRequests st) = false ->
     Chan.cap (clientRequests st) <= length (Chan.buf (clientRequests st)) ->
     step MaxOutstanding (with_shutdown q s l st) (Submit a g rcap) = None) /\
  (forall a g rcap w,
     workers st !! w <> Some Idle \/ Chan.buf (clientRequests st) <> [] \/
       Chan.closed (clientRequests st) = true ->
     step MaxOutstanding (with_shutdown q s l st) (Handoff a g rcap w) = None) /\
  (forall a g rcap,
     crashed st = false ->
     Chan.closed (clientRequests st) = true ->
     step MaxOutstanding (with_shutdown q s l st) (Submit a g rcap) =
       Some (crash (with_shutdown q s l st))).
Proof.
  split_and!; intros; unfold step; cbn.
  - destruct (crashed st); [done|].
    destruct (Chan.send _ _); done.
  - destruct (crashed st); [done|].
    destruct (workers st !! w) as [[]|]; try done.
    destruct (Chan.meets_receiver _); done.
  - match goal with
    | Hc : crashed st = false, Ho : Chan.closed _ = false, Hl : _ < _ |- _ =>
        unfold Chan.send; rewrite Hc, Ho; apply Nat.ltb_lt in Hl; rewrite Hl
    end.
    eexists; split_and!; reflexivity.
  - match goal with
    | Hc : crashed st = false, Ho : Chan.closed _ = false,
      Hb : Chan.buf _ = [], Hw : workers st !! w = Some Idle |- _ =>
        unfold Chan.meets_receiver; rewrite Hc, Hw, Ho, Hb; cbn;
        eexists; split_and!; [reflexivity|reflexivity| |exact Hc];
        cbn; apply list_lookup_insert_eq; by eapply lookup_lt_Some
    end.
  - match goal with
    | Ho : Chan.closed _ = false, Hl : _ <= _ |- _ =>
        unfold Chan.send; rewrite Ho; apply Nat.ltb_ge in Hl; rewrite Hl
    end.
    by destruct (crashed st).
  - destruct (crashed st); [done|].
    destruct (workers st !! w) as [[]|] eqn:Hw; try done.
    unfold Chan.meets_receiver.
    match goal with
    | H : _ \/ _ \/ _ |- _ => destruct H as [H|[H|H]]
    end.
    + done.
    + rewrite bool_decide_eq_false_2 by done. by rewrite andb_false_r.
    + match goal with H : Chan.closed _ = true |- _ => by rewrite H end.
  - match goal with
    | Hc : crashed st = false, Ho : Chan.closed _ = true |- _ =>
        unfold Chan.send; by rewrite Hc, Ho
    end.
Qed.

(** C3, amended, on sends made after the signal, [Serve] having returned:
    into a buffer with room, and to an idle handler. *)
Lemma submission_does_not_look_at_quit_witness :
  let st := run 1 [Launch; Launch] (init 1 0) in
  (exists st',
     step 1 (with_shutdown (Chan.make 0) true Returned st)
       (Submit [3; 4; 5]%Z (returns 12) 0) = Some st' /\
     heap st' = heap st ++ [new_task [3; 4; 5]%Z (returns 12) 0] /\
     Chan.buf (clientRequests st') = Chan.buf (clientRequests st) ++ [length (heap st)]) /\
  (exists st',
     step 1 (with_shutdown (Chan.make 0) true Returned st)
       (Handoff [3; 4; 5]%Z (returns 12) 0 0) = Some st' /\
     heap st' = heap st ++ [new_task [3; 4; 5]%Z (returns 12) 0] /\
     workers st' !! 0 = Some (Computing (length (heap st))) /\
     crashed st' = false).
Proof.
  pose proof (submission_does_not_look_at_quit 1
                (run 1 [Launch; Launch] (init 1 0)) (Chan.make 0) true Returned)
    as (_ & _ & Hroom & Hidle & _).
  split.
  - apply Hroom; [reflexivity|reflexivity|cbn; lia].
  - apply Hidle; reflexivity.
Defined.

(** C4 as stated fails: [Serve] returns on [quit] while a handler is still
    computing a request whose reply has not been written; and a handler
    leaves its loop on a closed queue although [quit] was never
    signalled. *)
Lemma serve_returns_with_a_request_in_flight :
  let st := run 1 [Launch; Launch; Handoff [3; 4; 5]%Z (fun a => Some (sum a)) 0 0;
                   TellServe] (init 0 0) in
  let st2 := run 1 [Launch; Close; Pull 0] (init 0 0) in
  serve st = Returned /\ workers st = [Computing 0] /\ written <$> heap st = [[]] /\
  workers st2 = [Exited] /\ signalled st2 = false.
Proof. cbv zeta. split_and!; reflexivity. Qed.

Lemma step_exit (M : nat) (st st' : state) (a : action) (w : nat) :
  step M st a = Some st' -> workers st' !! w = Some Exited ->
  workers st !! w = Some Exited \/
  (Chan.closed (clientRequests st) = true /\ Chan.buf (clientRequests st) = []).
Proof.
  unfold step; intros Hs Hw.
  destruct (crashed st); [done|].
  destruct a as [| | | | |ar g rcap|ar g rcap w'| |w'|w'|w'|j|j]; cbn in Hs.
  all: unfold launch, pull, compute, reply, collect, abandon in Hs.
  all: split_matches Hs; simplify_eq; cbn in Hw; eauto.
  all: try (apply lookup_snoc_Some in Hw as [(? & ?) | (? & ?)]; by eauto).
  all: other_worker Hw; eauto.
  chan_facts. by right.
Qed.

(** C4, amended: a handler leaves its loop only when [clientRequests] is
    closed and drained; no request is dropped: every submitted request is
    buffered, held by a handler, or finished; and [Serve] returns as soon as
    a send on [quit] meets it, whatever is queued or in flight. *)
Theorem handler_exits_only_on_closed_drained_queue
    (MaxOutstanding qcap quitcap : nat) :
  (forall (st st' : state) (a : action) (w : nat),
     step MaxOutstanding st a = Some st' ->
     workers st' !! w = Some Exited ->
     workers st !! w = Some Exited \/
     (Chan.closed (clientRequests st) = true /\ Chan.buf (clientRequests st) = [])) /\
  (forall (tr : list action) (i : nat),
     let st := run MaxOutstanding tr (init qcap quitcap) in
     i < length (heap st) ->
     i ∈ Chan.buf (clientRequests st) \/
     (exists w l, workers st !! w = Some l /\ current l = Some i) \/
     i ∈ finished st) /\
  (forall st : state,
     crashed st = false -> serve st = AwaitQuit ->
     Chan.meets_receiver (quit st) = true ->
     step MaxOutstanding st TellServe = Some (with_shutdown (quit st) true Returned st)).
Proof.
  split_and!.
  - intros st st' a w. apply step_exit.
  - intros tr i st Hi.
    pose proof (pool_run_inv MaxOutstanding tr _ (pool_init_inv qcap quitcap)) as Hinv.
    fold st in Hinv.
    pose proof (occ_app i (begun st) (Chan.buf (clientRequests st))) as Ha.
    rewrite (inv_fifo st Hinv), occ_seq in Ha.
    rewrite decide_True in Ha by lia.
    pose proof (inv_once st Hinv i) as Ho.
    destruct (decide (1 <= occ i (Chan.buf (clientRequests st)))) as [Hq|Hq].
    { left. by apply occ_elem. }
    destruct (decide (1 <= busy i (workers st))) as [Hb|Hb].
    { right; left. by apply busy_elem. }
    right; right. apply occ_elem. lia.
  - intros st Hc Hs Hq. unfold step. by rewrite Hc, Hs, Hq.
Qed.

(** C4, amended, on a handler that finds the queue closed. *)
Lemma handler_exits_only_on_closed_drained_queue_witness :
  let st := run 1 [Launch; Close] (init 0 0) in
  step 1 st (Pull 0) = Some (run 1 [Pull 0] st) /\
  (workers st !! 0 = Some Exited \/
   (Chan.closed (clientRequests st) = true /\ Chan.buf (clientRequests st) = [])).
Proof.
  split; [reflexivity|].
  apply (proj1 (handler_exits_only_on_closed_drained_queue 1 0 0)
           (run 1 [Launch; Close] (init 0 0)) _ (Pull 0) 0 eq_refl).
  reflexivity.
Defined.

(** C8, amended, on the request of the notes with its client waiting. *)
Lemma reply_needs_room_or_receiver_witness :
  let st := run 1 [Launch; Handoff [3; 4; 5]%Z (fun a => Some (sum a)) 0 0; Compute 0]
                (init 0 0) in
  workers st !! 0 = Some (Replying 0 (Result 12)) /\
  exists st' t', step 1 st (Reply 0) = Some st' /\
                 workers st' !! 0 = Some Idle /\
                 heap st' !! 0 = Some t' /\ written t' = written request ++ [Result 12].
Proof.
  split; [reflexivity|].
  apply (proj1 (reply_needs_room_or_receiver 1
                  (run 1 [Launch; Handoff [3; 4; 5]%Z (fun a => Some (sum a)) 0 0; Compute 0]
                     (init 0 0))
                  0 0 (Result 12) request eq_refl eq_refl)).
  - reflexivity.
  - reflexivity.
  - right. split; reflexivity.
Defined.

End PoolSpec.

(** * More of the notes *)
Module BytesSpec.
Import Bytes.

Lemma lengths_lex (i : nat) (a b : list Z) :
  i <= length a -> i <= length b -> (length a <= i \/ length b <= i) ->
  (if length b <? length a then Some 1%Z
   else if length a <? length b then Some (-1)%Z else Some 0%Z)
  = Some (lex (drop i a) (drop i b)).
Proof.
  intros Ha Hb Hor.
  destruct (drop i a) as [|x ra] eqn:Hda; destruct (drop i b) as [|y rb] eqn:Hdb;
    apply (f_equal length) in Hda; apply (f_equal length) in Hdb;
    rewrite length_drop in Hda, Hdb; cbn in Hda, Hdb; cbn [lex].
  - destruct (Nat.ltb_spec (length b) (length a)); [lia|].
    destruct (Nat.ltb_spec (length a) (length b)); [lia|done].
  - destruct (Nat.ltb_spec (length b) (length a)); [lia|].
    destruct (Nat.ltb_spec (length a) (length b)); [done|lia].
  - destruct (Nat.ltb_spec (length b) (length a)); [done|lia].
  - lia.
Qed.

Lemma compare_loop_lex (fuel i : nat) (a b : list Z) :
  length a - i <= fuel -> i <= length a -> i <= length b ->
  compare_loop fuel i a b = Some (lex (drop i a) (drop i b)).
Proof.
  revert i; induction fuel as [|fuel IH]; intros i Hfuel Ha Hb; cbn [compare_loop].
  - destruct (Nat.ltb_spec i (length a)) as [Hia|Hia]; [lia|]. cbn [andb].
    apply lengths_lex; lia.
  - destruct (Nat.ltb_spec i (length a)) as [Hia|Hia];
      destruct (Nat.ltb_spec i (length b)) as [Hib|Hib]; cbn [andb];
      try (apply lengths_lex; lia).
    destruct (lookup_lt_is_Some_2 a i Hia) as [x Hx].
    destruct (lookup_lt_is_Some_2 b i Hib) as [y Hy].
    rewrite Hx, Hy.
    rewrite (drop_S a x i Hx), (drop_S b y i Hy). cbn [lex].
    destruct (x >? y)%Z; [done|]. destruct (x <? y)%Z; [done|].
    apply IH; lia.
Qed.

Lemma Compare_lex (a b : list Z) : Compare a b = Some (lex a b).
Proof. unfold Compare. rewrite compare_loop_lex by lia. done. Qed.

Lemma lex_range (a b : list Z) : lex a b = (-1)%Z \/ lex a b = 0%Z \/ lex a b = 1%Z.
Proof.
  revert b; induction a as [|x a IH]; intros [|y b]; cbn; auto.
  destruct (x >? y)%Z; auto. destruct (x <? y)%Z; auto.
Qed.

Lemma lex_zero (a b : list Z) : lex a b = 0%Z <-> a = b.
Proof.
  revert b; induction a as [|x a IH]; intros [|y b]; cbn; try done.
  destruct (Z.gtb_spec x y); [split; [done|intros; simplify_eq; lia]|].
  destruct (Z.ltb_spec x y); [split; [done|intros; simplify_eq; lia]|].
  rewrite IH. split; [intros ->; f_equal; lia | by intros [= _ ->]].
Qed.

Lemma lex_opp (a b : list Z) : lex b a = (- lex a b)%Z.
Proof.
  revert b; induction a as [|x a IH]; intros [|y b]; cbn; try done.
  destruct (Z.gtb_spec x y), (Z.ltb_spec x y), (Z.gtb_spec y x), (Z.ltb_spec y x);
    try lia; auto.
Qed.

Lemma lex_trans (a b c : list Z) :
  lex a b = (-1)%Z -> lex b c = (-1)%Z -> lex a c = (-1)%Z.
Proof.
  revert b c; induction a as [|x a IH]; intros [|y b] [|z c]; cbn; try done.
  destruct (Z.gtb_spec x y), (Z.ltb_spec x y), (Z.gtb_spec y z), (Z.ltb_spec y z),
    (Z.gtb_spec x z), (Z.ltb_spec x z); try lia; try done.
  apply IH.
Qed.

Lemma lex_app (p a b : list Z) : lex (p ++ a) (p ++ b) = lex a b.
Proof.
  induction p as [|x p IH]; cbn; [done|].
  rewrite Z.gtb_ltb, Z.ltb_irrefl. done.
Qed.

(** [Compare] returns 0 exactly on equal slices. *)
Theorem Compare_zero_iff_equal (a b : list Z) : Compare a b = Some 0%Z <-> a = b.
Proof.
  rewrite Compare_lex. split.
  - intros [= H]. by apply lex_zero.
  - intros ->. f_equal. by apply lex_zero.
Qed.

(** [Compare] always returns, its result is -1, 0 or 1, and exchanging the
    arguments negates it. *)
Theorem Compare_antisymmetric (a b : list Z) :
  exists z : Z, Compare a b = Some z /\ Compare b a = Some (- z)%Z /\
                (z = -1 \/ z = 0 \/ z = 1)%Z.
Proof.
  exists (lex a b). rewrite !Compare_lex, (lex_opp a b).
  split_and!; [reflexivity|reflexivity|apply lex_range].
Qed.

(** The order that [Compare] decides is transitive. *)
Theorem Compare_transitive (a b c : list Z) :
  Compare a b = Some (-1)%Z -> Compare b c = Some (-1)%Z ->
  Compare a c = Some (-1)%Z.
Proof.
  rewrite !Compare_lex. intros [= H1] [= H2]. f_equal. by eapply lex_trans.
Qed.

(** Transitivity on three short slices. *)
Lemma Compare_transitive_witness :
  Compare [1; 2]%Z [1; 3]%Z = Some (-1)%Z /\ Compare [1; 3]%Z [2]%Z = Some (-1)%Z /\
  Compare [1; 2]%Z [2]%Z = Some (-1)%Z.
Proof.
  split; [reflexivity|]. split; [reflexivity|].
  apply (Compare_transitive [1; 2]%Z [1; 3]%Z [2]%Z); reflexivity.
Defined.

(** A common prefix does not change the result of [Compare]; a slice comes
    before each of its proper extensions; and the first byte that differs
    decides. *)
Theorem Compare_skips_common_prefix (p a b : list Z) :
  Compare (p ++ a) (p ++ b) = Compare a b /\
  (forall y c, Compare a (a ++ y :: c) = Some (-1)%Z) /\
  (forall x y a' b', (x < y)%Z -> Compare (p ++ x :: a') (p ++ y :: b') = Some (-1)%Z).
Proof.
  split_and!.
  - by rewrite !Compare_lex, lex_app.
  - intros y c. rewrite Compare_lex. f_equal.
    rewrite <- (app_nil_r a) at 1. by rewrite lex_app.
  - intros x y a' b' Hxy. rewrite Compare_lex, lex_app. cbn.
    destruct (Z.gtb_spec x y); [lia|]. destruct (Z.ltb_spec x y); [done|lia].
Qed.

(** The first difference decides, after a common prefix of two bytes. *)
Lemma Compare_skips_common_prefix_witness :
  Compare ([7; 7] ++ [1; 9])%Z ([7; 7] ++ [2])%Z = Some (-1)%Z.
Proof.
  apply (proj2 (proj2 (Compare_skips_common_prefix [7; 7]%Z [] []))). lia.
Defined.

End BytesSpec.

Module SlicesSpec.
Import Slices.

Lemma index_nat {A : Type} (a : list A) (n : nat) : Bytes.index a (Z.of_nat n) = a !! n.
Proof.
  unfold Bytes.index. destruct (Z.ltb_spec (Z.of_nat n) 0); [lia|].
  by rewrite Nat2Z.id.
Qed.

Lemma index_Some {A : Type} (a : list A) (i : Z) (x : A) :
  Bytes.index a i = Some x ->
  (0 <= i < Z.of_nat (length a))%Z /\ a !! Z.to_nat i = Some x.
Proof.
  unfold Bytes.index. destruct (Z.ltb_spec i 0); [done|].
  intros H'. split; [|done]. apply lookup_lt_Some in H'. lia.
Qed.

Lemma index_None {A : Type} (a : list A) (i : Z) :
  Bytes.index a i = None <-> ~ (0 <= i < Z.of_nat (length a))%Z.
Proof.
  unfold Bytes.index. destruct (Z.ltb_spec i 0); [split; [lia|done]|].
  rewrite lookup_ge_None. lia.
Qed.

(** Swapping the two ends of the middle part [x :: m ++ [y]]. *)
Lemma swap_ends {A : Type} (p m q : list A) (x y : A) :
  swap (Z.of_nat (length p)) (Z.of_nat (length p + S (length m)))
       (p ++ (x :: m ++ [y]) ++ q)
  = Some ((p ++ [y]) ++ m ++ ([x] ++ q)).
Proof.
  change ((x :: m ++ [y]) ++ q) with (x :: (m ++ [y]) ++ q).
  unfold swap. rewrite !index_nat, !Nat2Z.id.
  rewrite (list_lookup_middle p _ x) by done.
  assert (E : p ++ x :: (m ++ [y]) ++ q = (p ++ x :: m) ++ y :: q).
  { by rewrite <- !app_assoc. }
  rewrite E at 1.
  rewrite (list_lookup_middle (p ++ x :: m) q y)
    by (rewrite length_app; cbn; lia).
  f_equal.
  replace (length p) with (length p + 0) at 2 by lia.
  rewrite insert_app_r. cbn.
  replace (p ++ y :: (m ++ [y]) ++ q) with ((p ++ y :: m) ++ y :: q)
    by (by rewrite <- !app_assoc).
  replace (length p + S (length m)) with (length (p ++ y :: m) + 0)
    by (rewrite length_app; cbn; lia).
  rewrite insert_app_r. cbn. by rewrite <- !app_assoc.
Qed.

Lemma reverse_loop_middle {A : Type} (fuel : nat) (p m q : list A) :
  length m <= fuel ->
  reverse_loop fuel (Z.of_nat (length p))
                    (Z.of_nat (length p + length m) - 1) (p ++ m ++ q)
  = Some (p ++ reverse m ++ q).
Proof.
  revert p m q; induction fuel as [|fuel IH]; intros p m q Hfuel.
  - destruct m; [|cbn in Hfuel; lia]. cbn [reverse_loop].
    destruct (Z.ltb_spec (Z.of_nat (length p)) (Z.of_nat (length p + length (@nil A)) - 1));
      [cbn in *; lia|done].
  - destruct m as [|x m]; [|destruct m as [|y m _] using rev_ind].
    + cbn [reverse_loop length].
      destruct (Z.ltb_spec (Z.of_nat (length p)) (Z.of_nat (length p + 0) - 1)); [lia|done].
    + cbn [reverse_loop length].
      destruct (Z.ltb_spec (Z.of_nat (length p)) (Z.of_nat (length p + 1) - 1)); [lia|done].
    + cbn [reverse_loop].
      rewrite length_cons, length_app in *. cbn [length] in *.
      destruct (Z.ltb_spec (Z.of_nat (length p))
                  (Z.of_nat (length p + S (length m + 1)) - 1)) as [_|Hge]; [|lia].
      replace (Z.of_nat (length p + S (length m + 1)) - 1)%Z
        with (Z.of_nat (length p + S (length m))) by lia.
      rewrite swap_ends.
      replace (Z.of_nat (length p) + 1)%Z with (Z.of_nat (length (p ++ [y])))
        by (rewrite length_app; cbn; lia).
      replace (Z.of_nat (length p + S (length m)) - 1)%Z
        with (Z.of_nat (length (p ++ [y]) + length m) - 1)%Z
        by (rewrite length_app; cbn; lia).
      rewrite IH by lia.
      f_equal. rewrite reverse_cons, reverse_snoc. cbn.
      by rewrite <- !app_assoc.
Qed.

(** The reversal loop never indexes out of range and leaves the slice
    reversed, whatever its length, the empty slice included. *)
Theorem Reverse_reverses {A : Type} (a : list A) : Reverse a = Some (reverse a).
Proof.
  unfold Reverse.
  pose proof (reverse_loop_middle (length a) [] a [] (le_n _)) as H.
  cbn [length app Nat.add] in H. rewrite !app_nil_r in H.
  exact H.
Qed.

Lemma swap_nat {A : Type} (s : list A) (i j : nat) (x y : A) :
  s !! i = Some x -> s !! j = Some y ->
  swap (Z.of_nat i) (Z.of_nat j) s = Some (<[j := x]> (<[i := y]> s)).
Proof. intros Hi Hj. unfold swap. by rewrite !index_nat, Hi, Hj, !Nat2Z.id. Qed.

Lemma swap_Some {A : Type} (s s' : list A) (i j : Z) :
  swap i j s = Some s' ->
  exists (ni nj : nat) (x y : A),
    i = Z.of_nat ni /\ j = Z.of_nat nj /\ s !! ni = Some x /\ s !! nj = Some y /\
    s' = <[nj := x]> (<[ni := y]> s).
Proof.
  unfold swap.
  destruct (Bytes.index s i) as [x|] eqn:Hi; [|done].
  destruct (Bytes.index s j) as [y|] eqn:Hj; [|done].
  intros [= <-].
  apply index_Some in Hi as [Hi1 Hi2]. apply index_Some in Hj as [Hj1 Hj2].
  exists (Z.to_nat i), (Z.to_nat j), x, y. split_and!; try done; lia.
Qed.

(** When [Swap] returns, the two elements have changed places, every other
    element is where it was, the length is the same, the result is a
    permutation of the sequence, and swapping again restores it. *)
Theorem Swap_exchanges (s s' : Sequence) (i j : Z) :
  Swap s i j = Some s' ->
  Bytes.index s' i = Bytes.index s j /\
  Bytes.index s' j = Bytes.index s i /\
  (forall k, k <> i -> k <> j -> Bytes.index s' k = Bytes.index s k) /\
  Len s' = Len s /\ s' ≡ₚ s /\
  Swap s' i j = Some s.
Proof.
  unfold Swap, Sequence in *. intros H.
  apply swap_Some in H as (ni & nj & x & y & -> & -> & Hi & Hj & ->).
  assert (Hli : ni < length s) by (by eapply lookup_lt_Some).
  assert (Hlj : nj < length s) by (by eapply lookup_lt_Some).
  assert (Hi' : (<[nj := x]> (<[ni := y]> s)) !! ni = Some y).
  { destruct (decide (nj = ni)) as [->|Hne].
    - rewrite list_lookup_insert_eq by (by rewrite length_insert). congruence.
    - rewrite list_lookup_insert_ne by done. by rewrite list_lookup_insert_eq. }
  assert (Hj' : (<[nj := x]> (<[ni := y]> s)) !! nj = Some x).
  { by rewrite list_lookup_insert_eq by (by rewrite length_insert). }
  split_and!.
  - by rewrite !index_nat, Hi', Hj.
  - by rewrite !index_nat, Hj', Hi.
  - intros k Hki Hkj. unfold Bytes.index. destruct (Z.ltb_spec k 0); [done|].
    rewrite !list_lookup_insert_ne by lia. done.
  - unfold Len. by rewrite !length_insert.
  - by apply Permutation_insert_swap.
  - rewrite (swap_nat _ ni nj y x Hi' Hj'). f_equal.
    apply list_eq. intros k.
    destruct (decide (k = nj)) as [->|Hkj].
    + rewrite list_lookup_insert_eq by (by rewrite !length_insert). done.
    + rewrite list_lookup_insert_ne by done.
      destruct (decide (k = ni)) as [->|Hki].
      * rewrite list_lookup_insert_eq by (by rewrite !length_insert). done.
      * by rewrite !list_lookup_insert_ne by done.
Qed.

(** Swapping the ends of a sequence of three, twice. *)
Lemma Swap_exchanges_witness :
  Swap [3; 1; 2]%Z 0 2 = Some [2; 1; 3]%Z /\ Swap [2; 1; 3]%Z 0 2 = Some [3; 1; 2]%Z.
Proof.
  split; [reflexivity|].
  apply (Swap_exchanges [3; 1; 2]%Z [2; 1; 3]%Z 0 2 eq_refl).
Defined.

(** [Swap] and [Less] panic exactly when one of the two indices is negative
    or not below [Len]. *)
Theorem Sequence_methods_panic_out_of_range (s : Sequence) (i j : Z) :
  (Swap s i j = None <-> ~ ((0 <= i < Len s)%Z /\ (0 <= j < Len s)%Z)) /\
  (Less s i j = None <-> ~ ((0 <= i < Len s)%Z /\ (0 <= j < Len s)%Z)).
Proof.
  unfold Swap, swap, Less, Len.
  destruct (Bytes.index s i) as [x|] eqn:Hi; destruct (Bytes.index s j) as [y|] eqn:Hj.
  - apply index_Some in Hi as [? _]. apply index_Some in Hj as [? _].
    split; (split; [done|intros []; by split]).
  - apply index_Some in Hi as [? _]. apply index_None in Hj.
    split; (split; [intros _ [? ?]; done|done]).
  - apply index_None in Hi.
    split; (split; [intros _ [? ?]; done|done]).
  - apply index_None in Hi.
    split; (split; [intros _ [? ?]; done|done]).
Qed.

(** [Less] is a strict order on the positions of a sequence: irreflexive,
    asymmetric and transitive, and two positions neither of which is less
    than the other hold equal elements. *)
Theorem Less_is_a_strict_order (s : Sequence) (i j k : Z) :
  Less s i i <> Some true /\
  (Less s i j = Some true -> Less s j i = Some false) /\
  (Less s i j = Some true -> Less s j k = Some true -> Less s i k = Some true) /\
  (Less s i j = Some false -> Less s j i = Some false ->
   Bytes.index s i = Bytes.index s j).
Proof.
  unfold Less.
  destruct (Bytes.index s i) as [x|]; destruct (Bytes.index s j) as [y|];
    destruct (Bytes.index s k) as [z|]; split_and!; try done;
    try (intros [= H]; lia);
    try (intros [= H1]; try intros [= H2]; try f_equal; lia).
Qed.

(** Asymmetry of [Less] on two positions of a sequence. *)
Lemma Less_is_a_strict_order_witness :
  Less [3; 1; 2]%Z 1 2 = Some true /\ Less [3; 1; 2]%Z 2 1 = Some false.
Proof.
  split; [reflexivity|].
  apply (proj1 (proj2 (Less_is_a_strict_order [3; 1; 2]%Z 1 2 0))). reflexivity.
Defined.

End SlicesSpec.

Module AppendSpec.
Import Slices.

Lemma store_from_ok (data : list Z) (s : slice) (l i : nat) :
  l + i + length data <= len s -> len s <= cap s ->
  store_from s l i data =
  Some (Slice (take (l + i) (arr s) ++ data ++ drop (l + i + length data) (arr s)) (len s)).
Proof.
  revert s i; induction data as [|c rest IH]; intros [a n] i Hfit Hwf;
    unfold cap in *; cbn [store_from len arr length] in *.
  - by rewrite Nat.add_0_r, app_nil_l, take_drop.
  - unfold store; cbn [len arr].
    destruct (Nat.ltb_spec (l + i) n) as [_|]; [|lia].
    rewrite IH by (cbn [len arr]; rewrite ?length_insert; lia).
    cbn [len arr]. f_equal. f_equal.
    replace (l + S i) with (S (l + i)) by lia.
    rewrite (take_S_r _ _ c) by (apply list_lookup_insert_eq; lia).
    rewrite take_insert_ge by lia.
    rewrite drop_insert_lt by lia.
    rewrite <- app_assoc. cbn. by rewrite Nat.add_succ_r.
Qed.

Lemma store_from_fails (data : list Z) (s : slice) (l i : nat) :
  data <> [] -> len s < l + i + length data -> store_from s l i data = None.
Proof.
  revert s i; induction data as [|c rest IH]; intros [a n] i Hne Hbig; [done|].
  cbn [store_from length len] in *. unfold store; cbn [len arr].
  destruct (Nat.ltb_spec (l + i) n) as [Hlt|]; [|done].
  destruct rest as [|c' rest]; [cbn in Hbig; lia|].
  apply IH; [done|]. cbn [len length] in *. lia.
Qed.

Lemma store_from_len (data : list Z) (s r : slice) (l i : nat) :
  store_from s l i data = Some r -> len r = len s /\ cap r = cap s.
Proof.
  revert s i; induction data as [|c rest IH]; intros s i; cbn [store_from].
  - by intros [= ->].
  - unfold store. destruct (l + i <? len s); [|done].
    intros H. apply IH in H as [-> ->]. unfold cap; cbn. by rewrite length_insert.
Qed.

(** The slice that [Append] cuts and fills: the old one when it has room, a
    new one of twice the needed size otherwise. *)
Lemma grown (s : slice) (n : nat) :
  wf s ->
  let s1 := if cap s <? len s + n then copy (make ((len s + n) * 2)) s else s in
  len s <= cap s1 /\ 
  cap s1 = (if cap s <? len s + n then (len s + n) * 2 else cap s) /\
  take (len s) (arr s1) = take (len s) (arr s) /\
  ((cap s <? len s + n) = false -> arr s1 = arr s).
Proof.
  unfold wf, cap. intros Hwf.
  destruct (Nat.ltb_spec (length (arr s)) (len s + n)) as [Hlt|Hge]; cbn zeta.
  - unfold copy, make; cbn [len arr].
    rewrite Nat.min_r by lia.
    rewrite length_app, length_take, length_drop, length_replicate.
    split_and!; [lia|lia| |done].
    rewrite take_app_le by (rewrite length_take; lia).
    rewrite take_take. f_equal. lia.
  - split_and!; [lia|done|done|done].
Qed.

(** [Append], with the cut [slice[0:1+len(data)]] of the notes, panics
    exactly in two cases: the slice is empty and its capacity equals
    [len(data)] (the cut is beyond the capacity), or the slice has two or
    more elements and [data] is not empty (a store is beyond the cut). *)
Theorem Append_panics_iff (s : slice) (data : list Z) :
  wf s ->
  (Append s data = None <->
   (len s = 0 /\ cap s = length data) \/ (2 <= len s /\ data <> [])).
Proof.
  intros Hwf. unfold Append. cbv zeta.
  pose proof (grown s (length data) Hwf) as (Hl & Hcap & Htake & Hsame).
  set (s1 := if cap s <? len s + length data
             then copy (make ((len s + length data) * 2)) s else s) in *.
  unfold reslice.
  destruct (Nat.leb_spec (1 + length data) (cap s1)) as [Hfit|Hno].
  - destruct (decide (data = [])) as [->|Hne].
    + cbn [store_from]. split; [done|]. cbn [length] in *.
      intros [[H0 Hc]|[_ ?]]; [|done].
      destruct (Nat.ltb_spec (cap s) (len s + 0)); lia.
    + destruct (decide (len s <= 1)) as [Hle|Hgt].
      * rewrite store_from_ok by (unfold cap in *; cbn [len arr]; lia).
        split; [done|].
        intros [[H0 Hc]|[? _]]; [|lia].
        destruct (Nat.ltb_spec (cap s) (len s + length data)); lia.
      * rewrite store_from_fails by (first [done | cbn [len]; lia]).
        split; [|done]. intros _. right. split; [lia|done].
  - split; [|done]. intros _.
    destruct (Nat.ltb_spec (cap s) (len s + length data)) as [Hlt|Hge].
    + unfold wf in Hwf. lia.
    + left. unfold wf in Hwf. destruct data; cbn [length] in *; lia.
Qed.

Lemma Append_Some (s r : slice) (data : list Z) :
  wf s -> Append s data = Some r ->
  exists s1 : slice,
    len s <= cap s1 /\ 1 + length data <= cap s1 /\
    cap s1 = (if cap s <? len s + length data then (len s + length data) * 2 else cap s) /\
    take (len s) (arr s1) = take (len s) (arr s) /\
    store_from (Slice (arr s1) (1 + length data)) (len s) 0 data = Some r.
Proof.
  intros Hwf. unfold Append. cbv zeta.
  pose proof (grown s (length data) Hwf) as (Hl & Hcap & Htake & _).
  set (s1 := if cap s <? len s + length data
             then copy (make ((len s + length data) * 2)) s else s) in *.
  unfold reslice.
  destruct (Nat.leb_spec (1 + length data) (cap s1)) as [Hfit|Hno]; [|done].
  intros Hst. exists s1. split_and!; done.
Qed.

(** When [Append] returns, the result has length [1 + len(data)]; it has
    the capacity of the argument when that had room for
    [len(slice) + len(data)] elements, and twice that number otherwise. *)
Theorem Append_length_and_capacity (s r : slice) (data : list Z) :
  wf s -> Append s data = Some r ->
  len r = 1 + length data /\ wf r /\
  cap r = (if cap s <? len s + length data then (len s + length data) * 2 else cap s).
Proof.
  intros Hwf H.
  destruct (Append_Some s r data Hwf H) as (s1 & Hl & Hfit & Hcap & _ & Hst).
  apply store_from_len in Hst as [Hlen Hc]. unfold wf.
  unfold cap in *; cbn [len arr] in *. split_and!; [done|lia|congruence].
Qed.

(** Appending two bytes to a slice of one that has room for them. *)
Lemma Append_length_and_capacity_witness :
  Append (Slice [5; 0; 0; 0]%Z 1) [6; 7]%Z = Some (Slice [5; 6; 7; 0]%Z 3) /\
  len (Slice [5; 6; 7; 0]%Z 3) = 1 + length [6; 7]%Z.
Proof.
  split; [reflexivity|].
  apply (Append_length_and_capacity (Slice [5; 0; 0; 0]%Z 1) _ [6; 7]%Z).
  - unfold wf, cap; cbn; lia.
  - reflexivity.
Defined.

Lemma Append_elems (s r : slice) (data : list Z) :
  wf s -> Append s data = Some r ->
  (len s = 1 -> elems r = elems s ++ data) /\
  (len s = 0 -> exists z, elems r = data ++ [z]) /\
  (1 <= len s -> data = [] -> elems r = take 1 (elems s)).
Proof.
  intros Hwf H.
  destruct (Append_Some s r data Hwf H) as (s1 & Hl & Hfit & Hcap & Htake & Hst).
  unfold elems. split_and!.
  - intros H1.
    rewrite store_from_ok in Hst by (unfold cap in *; cbn [len arr]; lia).
    injection Hst as <-. cbn [len arr]. rewrite H1 in *.
    rewrite <- Htake. rewrite app_assoc.
    apply take_app_length'. rewrite length_app, length_take. unfold cap in *. lia.
  - intros H0.
    rewrite store_from_ok in Hst by (unfold cap in *; cbn [len arr]; lia).
    injection Hst as <-. cbn [len arr]. rewrite H0. cbn [Nat.add]. rewrite take_0. cbn [app].
    destruct (drop (length data) (arr s1)) as [|z rest] eqn:Hd.
    { apply (f_equal length) in Hd. rewrite length_drop in Hd.
      unfold cap in *. cbn in Hd. lia. }
    exists z.
    replace (data ++ z :: rest) with ((data ++ [z]) ++ rest) by (by rewrite <- app_assoc).
    apply take_app_length'. rewrite length_app. cbn. lia.
  - intros H1 ->. cbn [store_from length] in *. injection Hst as <-. cbn [len arr].
    rewrite take_take. rewrite Nat.min_l by lia.
    apply (f_equal (take 1)) in Htake. rewrite !take_take in Htake.
    by rewrite !Nat.min_l in Htake by lia.
Qed.

Lemma values_length (d : source) (s : slice) :
  in_array d s -> length (values d (arr s)) = data_len d.
Proof.
  unfold in_array, values, data_len, cap. intros Hin.
  rewrite length_app, length_take, length_drop. lia.
Qed.

Lemma read_values (d : source) (s : slice) (i : nat) :
  in_array d s -> i < data_len d ->
  read d (arr s) i = values d (arr s) !! i /\ is_Some (read d (arr s) i).
Proof.
  unfold read, values, in_array, data_len, cap; intros Hin Hi.
  destruct (Nat.ltb_spec i (length (own d))) as [Hown|Hown].
  - rewrite lookup_app_l by done. split; [done|]. by apply lookup_lt_is_Some_2.
  - rewrite lookup_app_r by done.
    destruct (Nat.ltb_spec (i - length (own d)) (shared_len d)) as [Hk|Hk]; [|lia].
    rewrite lookup_take_lt by done. rewrite lookup_drop.
    split; [done|]. apply lookup_lt_is_Some_2. lia.
Qed.

(** A store at a place that [data] does not cover, or has left behind,
    changes no element still to be read. *)
Lemma read_after_store (d : source) (a : list Z) (p : nat) (c : Z) (j : nat) :
  (length (own d) <= j -> j - length (own d) < shared_len d ->
   p <> shared_from d + (j - length (own d))) ->
  read d (<[p := c]> a) j = read d a j.
Proof.
  unfold read. intros Hp.
  destruct (Nat.ltb_spec j (length (own d))); [done|].
  destruct (Nat.ltb_spec (j - length (own d)) (shared_len d)); [|done].
  apply list_lookup_insert_ne. by apply Hp.
Qed.

Lemma range_store_values (d : source) (vals : list Z) (l n : nat) (s : slice) (i : nat) :
  shared_len d = 0 \/ l + length (own d) <= shared_from d \/
    shared_from d + shared_len d <= l ->
  (forall j, i <= j < i + n ->
     read d (arr s) j = vals !! j /\ is_Some (read d (arr s) j)) ->
  range_store s l i n d = store_from s l i (take n (drop i vals)).
Proof.
  intros Hsep. revert s i; induction n as [|n IH]; intros s i Hread; [done|].
  destruct (Hread i ltac:(lia)) as [Hi [c Hc]].
  cbn [range_store]. rewrite Hc.
  assert (Hd : drop i vals = c :: drop (S i) vals).
  { apply drop_S. congruence. }
  rewrite Hd. cbn [take store_from].
  unfold store. destruct (l + i <? len s); [|done].
  apply IH. cbn [arr]. intros j Hj.
  rewrite read_after_store; [apply Hread; lia|]. lia.
Qed.

(** When the stores do not reach what is still to be read, [Append] does
    what it does on the elements of [data]. *)
Lemma AppendFrom_values (s : slice) (d : source) :
  in_array d s -> unharmed d s ->
  AppendFrom s d = Append s (values d (arr s)).
Proof.
  intros Hin Hsafe. unfold AppendFrom, Append. cbv zeta.
  rewrite (values_length d s Hin).
  destruct (Nat.ltb_spec (cap s) (len s + data_len d)) as [Hlt|Hge]; [done|].
  unfold reslice. destruct (1 + data_len d <=? cap s); [|done].
  rewrite (range_store_values d (values d (arr s))).
  - rewrite drop_0. by rewrite take_ge by (by rewrite (values_length d s Hin)).
  - unfold unharmed in Hsafe. cbn [len]. lia.
  - cbn [arr]. intros j Hj. apply read_values; [done|lia].
Qed.

(** What [Append] returns when the stores of its loop do not reach an
    element of [data] that is still to be read, as when [data] has an array
    of its own: on a slice of one element, the element followed by [data];
    on an empty slice, [data] followed by one more element; and with empty
    [data], the first element of the slice alone. When [data] shares the
    array of the slice the loop reads what it has just stored:
    [Append(a[:1], a[0:2])] on [a = {5, 6, 0}] returns [{5, 5, 5}], and
    [Append(a[1:2], a[0:3])] on [a = {9, 5, 6, 0, 0}] returns
    [{5, 9, 5, 9}]. *)
Theorem Append_contents :
  (forall (s r : slice) (d : source),
     wf s -> in_array d s -> unharmed d s -> AppendFrom s d = Some r ->
     (len s = 1 -> elems r = elems s ++ values d (arr s)) /\
     (len s = 0 -> exists z, elems r = values d (arr s) ++ [z]) /\
     (1 <= len s -> values d (arr s) = [] -> elems r = take 1 (elems s))) /\
  (forall (s : slice) (data : list Z),
     AppendFrom s (Elsewhere data) = Append s data) /\
  AppendFrom (Slice [5; 6; 0]%Z 1) (Within 0 2) = Some (Slice [5; 5; 5]%Z 3) /\
  AppendFrom (Slice [5; 6; 0; 0]%Z 1) (Source [9]%Z 0 2) =
    Some (Slice [5; 9; 5; 9]%Z 4).
Proof.
  split_and!.
  - intros s r d Hwf Hin Hsafe H.
    rewrite (AppendFrom_values s d Hin Hsafe) in H.
    by apply Append_elems.
  - intros s data. rewrite (AppendFrom_values s (Elsewhere data)).
    + unfold values; cbn. by rewrite app_nil_r.
    + unfold in_array; cbn; lia.
    + by left.
  - reflexivity.
  - reflexivity.
Qed.

(** Appending two bytes to a slice of one that must grow, the bytes taken
    from the array of the slice itself. *)
Lemma Append_contents_witness :
  AppendFrom (Slice [5; 6]%Z 1) (Within 0 2) = Some (Slice [5; 5; 6; 0; 0; 0]%Z 3) /\
  elems (Slice [5; 5; 6; 0; 0; 0]%Z 3) = elems (Slice [5; 6]%Z 1) ++ [5; 6]%Z.
Proof.
  split; [reflexivity|].
  apply (proj1 (proj1 Append_contents (Slice [5; 6]%Z 1) _ (Within 0 2)
                  ltac:(unfold wf, cap; cbn; lia)
                  ltac:(unfold in_array, cap; cbn; lia)
                  ltac:(unfold unharmed, data_len, cap; cbn; lia) eq_refl)).
  reflexivity.
Defined.

(** Appending one byte to a slice of two panics. *)
Lemma Append_panics_iff_witness :
  Append (Slice [1; 2]%Z 2) [3]%Z = None.
Proof.
  apply (proj2 (Append_panics_iff (Slice [1; 2]%Z 2) [3]%Z
                  ltac:(unfold wf, cap; cbn; lia))).
  right. split; [cbn; lia|done].
Defined.

End AppendSpec.

Module PictureSpec.
Import Slices.





End PictureSpec.

Module SumSpec.
Import Pool.

Lemma wrap_range (z : Z) : (- 2 ^ 63 <= wrap z < 2 ^ 63)%Z.
Proof.
  unfold wrap. pose proof (Z.mod_pos_bound (z + 2 ^ 63) (2 ^ 64) ltac:(lia)). lia.
Qed.

Lemma wrap_small (z : Z) : (- 2 ^ 63 <= z < 2 ^ 63)%Z -> wrap z = z.
Proof. intros H. unfold wrap. rewrite Z.mod_small by lia. lia. Qed.

Lemma wrap_add_l (x y : Z) : wrap (wrap x + y) = wrap (x + y).
Proof.
  unfold wrap. f_equal.
  replace ((x + 2 ^ 63) mod 2 ^ 64 - 2 ^ 63 + y + 2 ^ 63)%Z
    with ((x + 2 ^ 63) mod 2 ^ 64 + y)%Z by lia.
  rewrite Zplus_mod_idemp_l. f_equal. lia.
Qed.

Lemma wrap_add_r (x y : Z) : wrap (x + wrap y) = wrap (x + y).
Proof. by rewrite (Z.add_comm x), wrap_add_l, Z.add_comm. Qed.

Lemma sum_from (a : list Z) (s0 : Z) :
  fold_left (fun s v => wrap (s + v)) a (wrap s0) = wrap (s0 + foldr Z.add 0%Z a).
Proof.
  revert s0; induction a as [|v a IH]; intros s0; cbn.
  - by rewrite Z.add_0_r.
  - rewrite wrap_add_l, IH. f_equal. lia.
Qed.

Lemma sum_total (a : list Z) : sum a = wrap (foldr Z.add 0%Z a).
Proof. unfold sum. change 0%Z with (wrap 0) at 1. by rewrite sum_from. Qed.

(** [sum] returns the total of the elements reduced to the 64-bit range;
    when the total is in that range the result is exact, even if a partial
    sum overflows on the way. *)
Theorem sum_is_the_total_modulo_2_64 (a : list Z) :
  sum a = wrap (foldr Z.add 0%Z a) /\
  (- 2 ^ 63 <= sum a < 2 ^ 63)%Z /\
  ((- 2 ^ 63 <= foldr Z.add 0%Z a < 2 ^ 63)%Z -> sum a = foldr Z.add 0%Z a).
Proof.
  split; [apply sum_total|]. split.
  - rewrite sum_total. apply wrap_range.
  - intros H. by rewrite sum_total, wrap_small.
Qed.

(** The partial sum overflows, the result is exact. *)
Lemma sum_is_the_total_modulo_2_64_witness :
  sum [2 ^ 63 - 1; 1; -1]%Z = (2 ^ 63 - 1)%Z.
Proof.
  apply (proj2 (proj2 (sum_is_the_total_modulo_2_64 [2 ^ 63 - 1; 1; -1]%Z))).
  cbn. lia.
Defined.

(** The [sum] of a concatenation is the wrapped sum of the two [sum]s. *)
Theorem sum_of_concatenation (a b : list Z) : sum (a ++ b) = wrap (sum a + sum b).
Proof.
  rewrite !sum_total.
  rewrite foldr_app.
  rewrite wrap_add_l, wrap_add_r. f_equal.
  induction a as [|x a IH]; cbn; [done|]. rewrite IH. lia.
Qed.

End SumSpec.

Module StartupSpec.
Import Startup.

Local Open Scope string_scope.

Lemma eqb_empty (s : string) : String.eqb s "" = true <-> s = "".
Proof. apply String.eqb_eq. Qed.

Lemma append_nonempty_r (s t : string) : t <> "" -> String.append s t <> "".
Proof. destruct s; cbn; [done|discriminate]. Qed.

Lemma init_Some (v v' : vars) :
  init v = Some v' ->
  user v <> "" /\ user v' = user v /\
  home v' = (if String.eqb (home v) "" then String.append "/home/" (user v) else home v) /\
  gopath v' = (if String.eqb (gopath v) "" then String.append (home v') "/go" else gopath v).
Proof.
  unfold init. destruct (String.eqb_spec (user v) ""); [done|].
  intros [= <-]. by cbn.
Qed.

(** When [init] returns, [user] is unchanged and none of [user], [home]
    and [gopath] is empty; a [home] or [gopath] that was set is kept, and a
    missing [gopath] becomes [home + "/go"]. *)
Theorem init_leaves_no_variable_empty (v v' : vars) :
  init v = Some v' ->
  user v' = user v /\
  user v' <> "" /\ home v' <> "" /\ gopath v' <> "" /\
  (home v <> "" -> home v' = home v) /\
  (gopath v <> "" -> gopath v' = gopath v) /\
  (gopath v = "" -> gopath v' = String.append (home v') "/go").
Proof.
  intros H. apply init_Some in H as (Hu & Hu' & Hh & Hg).
  rewrite Hu', Hh, Hg.
  destruct (String.eqb_spec (home v) ""); destruct (String.eqb_spec (gopath v) "");
    split_and!; try done; try (by apply append_nonempty_r);
    try (cbn; discriminate); try (intros; congruence).
Qed.

(** [init] with only [user] set. *)
Lemma init_leaves_no_variable_empty_witness :
  init (Vars "" "gopher" "") = Some (Vars "/home/gopher" "gopher" "/home/gopher/go") /\
  gopath (Vars "/home/gopher" "gopher" "/home/gopher/go") <> "".
Proof.
  split; [reflexivity|].
  apply (init_leaves_no_variable_empty (Vars "" "gopher" "") _ eq_refl).
Defined.

(** [init] exits through [log.Fatal] exactly when [user] is empty, and
    running it again on its result changes nothing. *)
Theorem init_fails_without_user_and_is_idempotent (v : vars) :
  (init v = None <-> user v = "") /\
  (forall v', init v = Some v' -> init v' = Some v').
Proof.
  split.
  - unfold init. destruct (String.eqb_spec (user v) ""); split; done.
  - intros v' H. apply init_Some in H as (Hu & Hu' & Hh & Hg).
    assert (Hh' : home v' <> "").
    { rewrite Hh. destruct (String.eqb_spec (home v) ""); [|done].
      cbn. discriminate. }
    assert (Hg' : gopath v' <> "").
    { rewrite Hg. destruct (String.eqb_spec (gopath v) ""); [|done].
      by apply append_nonempty_r. }
    unfold init. rewrite Hu'.
    destruct (String.eqb_spec (user v) ""); [done|].
    destruct (String.eqb_spec (home v') ""); [done|].
    destruct (String.eqb_spec (gopath v') ""); [done|].
    cbv zeta. rewrite <- Hu'. by destruct v'.
Qed.

(** [init] without a user, and [init] on variables it has repaired. *)
Lemma init_fails_without_user_and_is_idempotent_witness :
  init (Vars "/root" "" "") = None /\
  init (Vars "/home/gopher" "gopher" "/home/gopher/go")
    = Some (Vars "/home/gopher" "gopher" "/home/gopher/go").
Proof.
  split.
  - apply (proj1 (init_fails_without_user_and_is_idempotent (Vars "/root" "" ""))).
    reflexivity.
  - apply (proj2 (init_fails_without_user_and_is_idempotent (Vars "" "gopher" ""))).
    reflexivity.
Defined.

End StartupSpec.

Module WebSpec.
Import Web.
Import SumSpec.

Lemma visits_from (k : nat) (z : Z) :
  visits k (MkCounter (Pool.wrap z)) =
  (MkCounter (Pool.wrap (z + Z.of_nat k)),
   (fun i => report (Pool.wrap (z + Z.of_nat i))) <$> seq 1 k).
Proof.
  revert z; induction k as [|k IH]; intros z.
  - cbn. by rewrite Z.add_0_r.
  - cbn [visits]. unfold ServerHTTP. cbn [n].
    rewrite wrap_add_l, IH. cbn [seq fmap list_fmap].
    f_equal; [f_equal; f_equal; lia|].
    f_equal.
    rewrite <- (fmap_S_seq 1 k), <- list_fmap_compose.
    apply list_fmap_ext. intros _ i _. cbn. do 2 f_equal. lia.
Qed.

(** After [k] visits in a row the counter has advanced by [k] (modulo
    2^64), and the [i]-th response reports the counter plus [i]. *)
Theorem Counter_counts_the_visits (k : nat) (ctr : Counter) :
  (- 2 ^ 63 <= n ctr < 2 ^ 63)%Z ->
  visits k ctr =
  (MkCounter (Pool.wrap (n ctr + Z.of_nat k)),
   (fun i => report (Pool.wrap (n ctr + Z.of_nat i))) <$> seq 1 k).
Proof.
  intros Hn. destruct ctr as [z]. cbn [n] in *.
  rewrite <- (wrap_small z Hn) at 1. apply visits_from.
Qed.

(** Three visits to a fresh counter. *)
Lemma Counter_counts_the_visits_witness :
  visits 3 (MkCounter 0) =
  (MkCounter 3, [report 1; report 2; report 3]).
Proof.
  rewrite (Counter_counts_the_visits 3 (MkCounter 0)) by (cbn; lia).
  reflexivity.
Defined.

Lemma notify_all_room (reqs : list nat) (ch : Chan.chan nat) :
  Chan.closed ch = false -> length (Chan.buf ch) <= Chan.cap ch ->
  let room := Chan.cap ch - length (Chan.buf ch) in
  notify_all ch reqs =
  (Chan.Make (Chan.cap ch) (Chan.buf ch ++ take room reqs) false, take room reqs).
Proof.
  revert ch; induction reqs as [|r rest IH]; intros [cp bf cl] Hopen Hfit;
    cbn [Chan.closed Chan.buf Chan.cap] in *; subst cl; cbn zeta.
  - cbn. by rewrite take_nil, app_nil_r.
  - cbn [notify_all]. unfold Notify, Chan.send. cbn [Chan.closed Chan.buf Chan.cap].
    destruct (Nat.ltb_spec (length bf) cp) as [Hlt|Hge].
    + rewrite IH by (cbn; rewrite ?length_app; cbn; lia).
      cbn [Chan.closed Chan.buf Chan.cap]. rewrite length_app. cbn [length].
      replace (cp - length bf) with (S (cp - (length bf + 1))) by lia.
      cbn [take]. by rewrite <- app_assoc.
    + rewrite IH by (cbn; lia). cbn [Chan.closed Chan.buf Chan.cap].
      replace (cp - length bf) with 0 by lia. by rewrite !take_0.
Qed.

(** With nobody receiving from the channel, exactly the first [n] visits of
    a channel of capacity [n] are answered, their requests queued in the
    order of the visits; a visit that finds the buffer full blocks. *)
Theorem Notify_answers_while_the_buffer_has_room (n : nat) (reqs : list nat) :
  notify_all (Chan.make n) reqs = (Chan.Make n (take n reqs) false, take n reqs) /\
  (forall ch req, Chan.closed ch = false -> Chan.cap ch <= length (Chan.buf ch) ->
     Notify ch req = Chan.Blocks).
Proof.
  split.
  - rewrite notify_all_room by (cbn; lia). cbn. by rewrite Nat.sub_0_r.
  - intros ch req Hopen Hfull. unfold Notify, Chan.send. rewrite Hopen.
    destruct (Nat.ltb_spec (length (Chan.buf ch)) (Chan.cap ch)); [lia|done].
Qed.

(** On an unbuffered channel the first visit blocks. *)
Lemma Notify_answers_while_the_buffer_has_room_witness :
  Notify (Chan.make 0) 7 = Chan.Blocks.
Proof.
  apply (proj2 (Notify_answers_while_the_buffer_has_room 0 [])); [reflexivity|].
  cbn. lia.
Defined.

End WebSpec.

Module SignalSpec.
Import Signal.
Import ChanFacts.

Lemma signal_step_inv (st st' : state) (a : action) :
  step st a = Some st' -> inv st -> inv st'.
Proof.
  unfold step, inv; intros Hs (Hopen & Hbuf & Hpast).
  destruct a.
  - destruct (worker st) eqn:Hw; simplify_eq; cbn.
    split_and!; [done| |].
    + destruct Hbuf as [?|[_ ?]]; [by left|done].
    + intros v Hv. by destruct (Hpast v Hv).
  - destruct (worker st) eqn:Hw; try done.
    destruct (Chan.send 1%Z (c st)) as [c'| |] eqn:Hsend; simplify_eq; cbn.
    apply send_proceeds in Hsend as (_ & Hc & _ & Hb & _).
    split_and!; [done| |].
    + destruct Hbuf as [E|[_ ?]]; [|done]. right. by rewrite Hb, E.
    + intros v Hv. by destruct (Hpast v Hv).
  - destruct (caller st) eqn:Hc; simplify_eq; cbn.
    split_and!; [done|done|done].
  - destruct (caller st) eqn:Hc; try done.
    destruct (Chan.recv (c st)) as [[[v|] c']| |] eqn:Hrecv; simplify_eq; cbn.
    + apply recv_proceeds in Hrecv as (_ & Hcl & Hb).
      destruct Hbuf as [E|[E Hf]]; [congruence|].
      rewrite E in Hb. simplify_eq.
      split_and!; [congruence|by left|]. by intros v [= <-].
    + apply recv_proceeds in Hrecv as (_ & _ & _ & _ & ?). congruence.
  - destruct (worker st) eqn:Hw; try done.
    destruct (caller st) eqn:Hc; try done.
    destruct (Chan.meets_receiver (c st)) eqn:Hm; simplify_eq; cbn.
    apply meets_receiver_true in Hm as [_ Hb].
    split_and!; [done|by left|]. by intros v [= <-].
Qed.

Lemma signal_run_inv (tr : list action) (st : state) : inv st -> inv (run tr st).
Proof.
  revert st; induction tr as [|a tr IH]; intros st Hst; [done|].
  apply IH. unfold next. destruct (step st a) eqn:Hs; [|done].
  cbn; eapply signal_step_inv; eauto.
Qed.

(** The launching goroutine gets past [<-c] only after [list.Sort()] has
    returned, and the value it receives is 1, whatever the capacity of [c];
    with the unbuffered channel of the notes it does get past, whichever of
    the two goroutines is ready first. *)
Theorem caller_passes_only_after_the_sort (n : nat) :
  (forall (tr : list action) (v : Z),
     caller (run tr (init n)) = Past v ->
     worker (run tr (init n)) = Finished /\ v = 1%Z) /\
  caller (run [SortDone; WorkDone; Meet] (init 0)) = Past 1 /\
  caller (run [WorkDone; SortDone; Meet] (init 0)) = Past 1.
Proof.
  split_and!; try reflexivity.
  intros tr v Hv.
  assert (Hinv : inv (run tr (init n))).
  { apply signal_run_inv. unfold inv; cbn. split_and!; [done|by left|done]. }
  by apply Hinv.
Qed.

(** The same with a buffer of one. *)
Lemma caller_passes_only_after_the_sort_witness :
  caller (run [SortDone; SendBuffered; WorkDone; RecvBuffered] (init 1)) = Past 1 /\
  worker (run [SortDone; SendBuffered; WorkDone; RecvBuffered] (init 1)) = Finished.
Proof.
  split; [reflexivity|].
  apply (proj1 (caller_passes_only_after_the_sort 1)
           [SortDone; SendBuffered; WorkDone; RecvBuffered] 1%Z).
  reflexivity.
Defined.

End SignalSpec.

Module SemMoreSpec.
Import Sem.
Import SemMore.
Import ChanFacts.
Import SemSpec.

Lemma sum_list_with_pos {A : Type} (g : A -> nat) (l : list A) :
  1 <= sum_list_with g l -> exists i x, l !! i = Some x /\ 1 <= g x.
Proof.
  induction l as [|a l IH]; cbn; [lia|]. intros H.
  destruct (decide (1 <= g a)) as [Ha|Ha].
  - by exists 0, a.
  - destruct IH as (i & x & ? & ?); [lia|]. by exists (S i), x.
Qed.

Lemma step_alive (st st' : state) (a : action) :
  step st a = Some st' -> alive st -> alive st'.
Proof.
  unfold step, alive; intros Hs Hal Hc'.
  destruct (crashed st) eqn:Hc; [done|]. specialize (Hal eq_refl).
  destruct a as [r| |r|r t| |t|t|s r]; cbn in Hs.
  all: try (destruct (threads st !! t) as [th|] eqn:Ht; [|done]).
  all: try unfold run_thread in Hs.
  all: split_matches Hs; simplify_eq; cbn in *; try done.
  all: repeat first [apply Forall_insert | apply Forall_app; split]; try done.
  all: try (by repeat constructor).
  all: cbn in *; simplify_eq; try done.
  all: try (destruct (pc _); cbn in *; simplify_eq; done).
  all: repeat match goal with
       | H : after_acquire (pc ?t) = Some _ |- _ => destruct (pc t); cbn in H; simplify_eq
       | H : after_release (pc ?t) = Some _ |- _ => destruct (pc t); cbn in H; simplify_eq
       end; done.
Qed.

Lemma run_alive (tr : list action) (st : state) : alive st -> alive (run tr st).
Proof.
  revert st; induction tr as [|a tr IH]; intros st Hst; [done|].
  apply IH. unfold next. destruct (step st a) eqn:Hs; [|done].
  cbn; eapply step_alive; eauto.
Qed.

(** A goroutine that holds a slot and has not panicked can take its step. *)
Lemma holder_moves (st : state) (t : nat) (th : thread) :
  inv st -> crashed st = false -> threads st !! t = Some th ->
  holding th = 1 -> pc th <> HPanicked -> pc th <> GPanicked ->
  exists st', step st (Run t) = Some st'.
Proof.
  intros (Hopen & Hh & Hc) Hrun Ht Hold Hp1 Hp2.
  unfold step. rewrite Hrun, Ht. unfold run_thread.
  assert (Hbuf : 1 <= length (Chan.buf (sem st))).
  { pose proof (sum_list_with_lookup holding (threads st) t th Ht).
    unfold holders, inUse in Hh. lia. }
  unfold holding in Hold.
  destruct (pc th) eqn:Hpc; try done; cbn; eauto.
  all: unfold Chan.recv; destruct (Chan.buf (sem st)); [cbn in Hbuf; lia|eauto].
Qed.

(** In every state the program reaches, a goroutine at its release [<-sem]
    can take the step, and the step frees one slot. *)
Theorem release_never_blocks
    (MaxOutstanding qcap : nat) (tr : list action) (t : nat) (th : thread) :
  let st := run tr (init MaxOutstanding qcap) in
  crashed st = false ->
  threads st !! t = Some th ->
  pc th = HRelease \/ pc th = GRelease ->
  exists st', step st (Run t) = Some st' /\ inUse st' + 1 = inUse st.
Proof.
  intros st Hrun Ht Hpc.
  destruct (gate_run_inv tr _ (gate_init_inv MaxOutstanding qcap)) as (Hopen & Hh & Hc).
  fold st in Hopen, Hh, Hc.
  assert (Hbuf : 1 <= length (Chan.buf (sem st))).
  { pose proof (sum_list_with_lookup holding (threads st) t th Ht) as Hs.
    assert (Hold : holding th = 1).
    { unfold holding. by destruct Hpc as [E|E]; rewrite E. }
    unfold holders, inUse in Hh. lia. }
  unfold step. rewrite Hrun, Ht. unfold run_thread, inUse.
  destruct (Chan.buf (sem st)) as [|x rest] eqn:Hb; [cbn in Hbuf; lia|].
  destruct Hpc as [E|E]; rewrite E; cbn; unfold Chan.recv; rewrite Hb;
    eexists; (split; [reflexivity|]); cbn; lia.
Qed.

(** One call of [handle] at its release. *)
Lemma release_never_blocks_witness :
  let st := run [CallHandle 7; Run 0; Run 0] (init 1 0) in
  exists st', step st (Run 0) = Some st' /\ inUse st' + 1 = inUse st.
Proof.
  apply (release_never_blocks 1 0 [CallHandle 7; Run 0; Run 0] 0 (Thread HRelease 1 0));
    [reflexivity|reflexivity|by left].
Defined.

(** With [MaxOutstanding >= 1], as long as some goroutine is at an acquire,
    inside [process], at the [go] statement or at a release, some goroutine
    can take a step: the callers of the semaphore never all wait for each
    other. *)
Theorem semaphore_does_not_deadlock
    (MaxOutstanding qcap : nat) (tr : list action) (t : nat) (th : thread) :
  let st := run tr (init MaxOutstanding qcap) in
  1 <= MaxOutstanding ->
  crashed st = false ->
  threads st !! t = Some th ->
  engaged (pc th) = true ->
  exists t' st', step st (Run t') = Some st'.
Proof.
  intros st Hcap Hrun Ht Heng.
  pose proof (gate_run_inv tr _ (gate_init_inv MaxOutstanding qcap)) as Hinv.
  fold st in Hinv.
  assert (Hal : alive st).
  { apply run_alive. intros _. constructor. }
  specialize (Hal Hrun).
  assert (Hcapst : capacity st = MaxOutstanding) by apply run_capacity.
  destruct (decide (holding th = 1)) as [Hold|Hfree].
  - exists t. pose proof (Forall_lookup_1 _ _ _ _ Hal Ht) as [? ?].
    by eapply holder_moves.
  - destruct Hinv as (Hopen & Hh & Hc).
    destruct (decide (inUse st < capacity st)) as [Hroom|Hfull].
    + exists t. unfold step. rewrite Hrun, Ht. unfold run_thread, Chan.send.
      rewrite Hopen. unfold inUse, capacity in Hroom.
      apply Nat.ltb_lt in Hroom. rewrite Hroom.
      unfold holding in Hfree.
      destruct (pc th); try done; cbn; eauto.
    + assert (Hpos : 1 <= sum_list_with holding (threads st)).
      { unfold holders in Hh. lia. }
      apply sum_list_with_pos in Hpos as (t' & th' & Ht' & Hold').
      assert (Hold1 : holding th' = 1).
      { unfold holding in *. destruct (pc th'); lia. }
      pose proof (Forall_lookup_1 _ _ _ _ Hal Ht') as [? ?].
      exists t'. eapply holder_moves; eauto. by split_and!.
Qed.

(** The second caller waits at the acquire; the first can move. *)
Lemma semaphore_does_not_deadlock_witness :
  let st := run [CallHandle 7; CallHandle 8; Run 0] (init 1 0) in
  step st (Run 1) = None /\ exists t' st', step st (Run t') = Some st'.
Proof.
  split; [reflexivity|].
  apply (semaphore_does_not_deadlock 1 0 [CallHandle 7; CallHandle 8; Run 0] 1
           (Thread (HAcquire 8) 0 0)); [lia|reflexivity|reflexivity|reflexivity].
Defined.

End SemMoreSpec.

Module PoolMoreSpec.
Import Pool.
Import PoolMore.
Import ChanFacts.
Import PoolSpec.

Lemma step_told (M : nat) (st st' : state) (a : action) :
  step M st a = Some st' -> told st -> told st'.
Proof.
  unfold step, told; intros Hs (Hbuf & Hret).
  destruct (crashed st); [done|].
  destruct a as [| | | | |ar g rcap|ar g rcap w| |w|w|w|i|i]; cbn in Hs.
  all: unfold launch, pull, compute, reply, collect, abandon in Hs.
  all: split_matches Hs; simplify_eq; cbn in *; try done.
  all: chan_facts; split_and!; try done; try congruence.
  all: try (intros _; by left).
  all: try (intros _; left; apply Hbuf; congruence).
  all: try (intros _; right; congruence).
  all: try (intros Hne; apply Hbuf; congruence).
  all: try (intros Hr; destruct (Hret Hr) as [?|?]; [by left|right; congruence]).
Qed.

Lemma run_told (M : nat) (tr : list action) (st : state) :
  told st -> told (run M tr st).
Proof.
  revert st; induction tr as [|a tr IH]; intros st Hst; [done|].
  apply IH. unfold next. destruct (step M st a) eqn:Hs; [|done].
  cbn. eapply step_told; eauto.
Qed.

Lemma omap_length_le {A B : Type} (g : A -> option B) (l : list A) :
  length (omap g l) <= length l.
Proof. induction l as [|a l IH]; cbn; [lia|]. destruct (g a); cbn; lia. Qed.

(** [Serve] starts at most [MaxOutstanding] handlers, so at most that
    many requests are in [process] at once; once [Serve] waits on [quit]
    or has returned, exactly [MaxOutstanding] handlers have been started;
    and [Serve] returns only after a send on [quit] or after [quit] has
    been closed. *)
Theorem handlers_never_exceed_MaxOutstanding
    (MaxOutstanding qcap quitcap : nat) (tr : list action) :
  let st := run MaxOutstanding tr (init qcap quitcap) in
  length (workers st) <= MaxOutstanding /\
  length (omap current (workers st)) <= MaxOutstanding /\
  (serve st = AwaitQuit \/ serve st = Returned -> length (workers st) = MaxOutstanding) /\
  (serve st = Returned -> signalled st = true \/ Chan.closed (quit st) = true).
Proof.
  intros st.
  pose proof (run_launched MaxOutstanding qcap quitcap tr) as Hl.
  pose proof (run_told MaxOutstanding tr (init qcap quitcap)) as Ht.
  fold st in Hl, Ht.
  destruct Ht as (_ & Hret); [by split|].
  pose proof (launched_le _ _ Hl) as Hlen.
  unfold launched in Hl.
  split_and!; [done| | |done].
  - pose proof (omap_length_le current (workers st)). lia.
  - intros [E|E]; rewrite E in Hl; done.
Qed.

(** Two handlers: [Serve] returns after [quit <- true], and also
    after [close(quit)] with nothing sent. *)
Lemma handlers_never_exceed_MaxOutstanding_witness :
  let st := run 2 [Launch; Launch; Launch; TellServe] (init 0 0) in
  let st2 := run 2 [Launch; Launch; Launch; CloseQuit; ServeQuit] (init 0 0) in
  (serve st = Returned /\ length (workers st) = 2 /\
   (signalled st = true \/ Chan.closed (quit st) = true)) /\
  (serve st2 = Returned /\ signalled st2 = false /\ length (workers st2) = 2 /\
   (signalled st2 = true \/ Chan.closed (quit st2) = true)).
Proof.
  destruct (handlers_never_exceed_MaxOutstanding 2 0 0 [Launch; Launch; Launch; TellServe])
    as (_ & _ & Hlen & Hsig).
  destruct (handlers_never_exceed_MaxOutstanding 2 0 0
              [Launch; Launch; Launch; CloseQuit; ServeQuit])
    as (_ & _ & Hlen2 & Hsig2).
  split.
  - split; [reflexivity|]. split; [apply Hlen; by right|apply Hsig; reflexivity].
  - split; [reflexivity|]. split; [reflexivity|].
    split; [apply Hlen2; by right|apply Hsig2; reflexivity].
Defined.

Lemma sum_list_with_two {A : Type} (g : A -> nat) (l : list A) (i j : nat) (x y : A) :
  i <> j -> l !! i = Some x -> l !! j = Some y -> g x + g y <= sum_list_with g l.
Proof.
  revert i j; induction l as [|a l IH]; intros [|i] [|j] Hne Hi Hj; cbn in *; try done.
  - simplify_eq. pose proof (sum_list_with_lookup g l j y Hj). lia.
  - simplify_eq. pose proof (sum_list_with_lookup g l i x Hi). lia.
  - assert (i <> j) by lia. specialize (IH i j ltac:(done) Hi Hj). lia.
Qed.

(** A request that a handler is working on is held by that handler alone,
    is in memory, is no longer queued and is not finished. *)
Theorem a_request_is_held_by_one_handler
    (MaxOutstanding qcap quitcap : nat) (tr : list action)
    (w1 w2 : nat) (l1 l2 : loc) (i : nat) :
  let st := run MaxOutstanding tr (init qcap quitcap) in
  workers st !! w1 = Some l1 -> current l1 = Some i ->
  workers st !! w2 = Some l2 -> current l2 = Some i ->
  w1 = w2 /\ i < length (heap st) /\
  (i ∉ finished st) /\ (i ∉ Chan.buf (clientRequests st)).
Proof.
  intros st Hw1 Hc1 Hw2 Hc2.
  pose proof (pool_run_inv MaxOutstanding tr _ (pool_init_inv qcap quitcap)) as Hinv.
  fold st in Hinv.
  destruct (inv_busy_bound st w1 i l1 Hinv Hw1 Hc1) as (Hi & Hfin & Hbusy).
  split_and!; [|done| |].
  - destruct (decide (w1 = w2)) as [|Hne]; [done|].
    pose proof (sum_list_with_two
      (fun l => if decide (current l = Some i) then 1 else 0)
      (workers st) w1 w2 l1 l2 Hne Hw1 Hw2) as Htwo.
    cbn in Htwo. rewrite !decide_True in Htwo by done.
    unfold busy in Hbusy. lia.
  - intros Hin%elem_occ. lia.
  - intros Hin%elem_occ.
    pose proof (occ_app i (begun st) (Chan.buf (clientRequests st))) as Ha.
    rewrite (inv_fifo st Hinv), occ_seq in Ha.
    pose proof (inv_once st Hinv i). case_decide; lia.
Qed.

(** Two handlers, two requests. *)
Lemma a_request_is_held_by_one_handler_witness :
  let st := run 2 [Launch; Launch; Handoff [1]%Z (returns 1) 0 0;
                   Handoff [2]%Z (returns 2) 0 1] (init 0 0) in
  workers st !! 1 = Some (Computing 1) /\ (1 ∉ finished st).
Proof.
  split; [reflexivity|].
  apply (a_request_is_held_by_one_handler 2 0 0
           [Launch; Launch; Handoff [1]%Z (returns 1) 0 0; Handoff [2]%Z (returns 2) 0 1]
           1 1 (Computing 1) (Computing 1) 1); reflexivity.
Defined.

End PoolMoreSpec.
